(** * BigInt: arbitrary-precision non-negative decimal integers

    A shallow embedding of [main.cpp] (class [BigInt] and the functions
    [factorial], [fibonacci], [catalan]) together with the proofs of the
    properties stated about it.

    Conventions of the embedding.
    - [std::string digits] is a [list Z] of [char] values, least significant
      digit first.  A value of type [int] that is stored into a [char] goes
      through [char_of_int] (8-bit two's complement).
    - [int] arithmetic is arithmetic in [Z]; division and remainder are the
      truncating [Z.quot] and [Z.rem] of C++.  Where the source computes on
      an [int] argument ([2 * n], [n + 1], [++i]) the result is wrapped to
      32 bits by [int_wrap]; the other [int] values (sums, differences and
      products of two digits, carries, counts of subtractions) stay far
      inside the range of [int].  Sizes and indices are natural numbers.
    - Exceptions are values of [exn]; a function that may throw returns an
      [outcome].  A [while] loop without a structural bound takes fuel, and
      running out of it is the third outcome [OutOfFuel].
    - The compound assignments that can throw return the receiver after the
      call together with the outcome. *)

From Stdlib Require Import ZArith List Lia Bool Arith.
From Stdlib Require Import Ascii String.
From Stdlib Require DecimalString DecimalFacts DecimalPos DecimalN DecimalZ.
Import ListNotations.

Local Open Scope Z_scope.

(* ================================================================== *)
(** * Native integers                                                   *)
(* ================================================================== *)

Definition INT_MAX : Z := 2147483647.
Definition INT_MIN : Z := -2147483648.
Definition ULLONG_MAX : Z := 18446744073709551615.

(** [int] results wrap to 32 bits, two's complement. *)
Definition int_wrap (x : Z) : Z := (x + 2147483648) mod 4294967296 - 2147483648.

(** Conversion of an [int] to [unsigned long long]. *)
Definition ull_of_int (x : Z) : Z := x mod 18446744073709551616.

(** Conversion of an [int] to [char]. *)
Definition char_of_int (x : Z) : Z := (x + 128) mod 256 - 128.

Definition in_int (x : Z) : Prop := INT_MIN <= x <= INT_MAX.
Definition in_ull (x : Z) : Prop := 0 <= x <= ULLONG_MAX.

(* ================================================================== *)
(** * Exceptions and outcomes                                           *)
(* ================================================================== *)

(** The exception classes thrown by the source, with their messages. *)
Inductive exn : Type :=
| invalid_argument (what : string)
| underflow_error (what : string)
| runtime_error (what : string).

(** The error kinds of the specification. *)
Inductive ErrorKind : Type := InvalidFormat | Underflow | DivisionByZero | InvalidArgument.

Inductive outcome (A : Type) : Type :=
| Ok (a : A)
| Throw (e : exn)
| OutOfFuel.

Arguments Ok {A} a.
Arguments Throw {A} e.
Arguments OutOfFuel {A}.

Definition bind {A B : Type} (m : outcome A) (f : A -> outcome B) : outcome B :=
  match m with
  | Ok a => f a
  | Throw e => Throw e
  | OutOfFuel => OutOfFuel
  end.

Notation "x <- m ;; k" := (bind m (fun x => k))
  (at level 61, m at next level, right associativity).
Notation "m ;; k" := (bind m (fun _ => k))
  (at level 61, right associativity).
Notation "' p <- m ;; k" := (bind m (fun x => let 'p := x in k))
  (at level 61, p pattern, m at next level, right associativity).

(* ================================================================== *)
(** * The class                                                         *)
(* ================================================================== *)

Record BigInt : Type := mkBigInt { digits : list Z }.

(** ** Constructors *)

(** [do { digits.push_back(n % 10); n /= 10; } while (n > 0);]
    An [unsigned long long] has at most 20 decimal digits, which bounds the
    loop. *)
Fixpoint ull_loop (fuel : nat) (n : Z) (ds : list Z) : list Z :=
  match fuel with
  | O => ds
  | S fuel' =>
      let ds := ds ++ [char_of_int (Z.rem n 10)] in
      let n := Z.quot n 10 in
      if n >? 0 then ull_loop fuel' n ds else ds
  end.

Definition BigInt_ull (n : Z) : BigInt := mkBigInt (ull_loop 20 n []).

(** [s.find_first_not_of('0')]: [None] is [string::npos]. *)
Fixpoint find_first_not_of_0 (s : list ascii) (pos : nat) : option nat :=
  match s with
  | [] => None
  | c :: s' => if Ascii.eqb c "0" then find_first_not_of_0 s' (S pos) else Some pos
  end.

Definition int_of_char (c : ascii) : Z := Z.of_N (N_of_ascii c).

Definition isdigit (c : ascii) : bool := (48 <=? int_of_char c) && (int_of_char c <=? 57).

(** The loop of the string constructor; [cs] is [valid_part] read from its
    last character down to its first. *)
Fixpoint parse_loop (cs : list ascii) (ds : list Z) : outcome (list Z) :=
  match cs with
  | [] => Ok ds
  | c :: cs' =>
      if negb (isdigit c) then Throw (invalid_argument "Non-digit character in string")
      else parse_loop cs' (ds ++ [char_of_int (int_of_char c - 48)])
  end.

(** [BigInt(const string& s)].  In the branch for [string::npos] the source
    assigns the string literal ["0"], whose only character has code 48. *)
Definition BigInt_str (s : string) : outcome BigInt :=
  let s := list_ascii_of_string s in
  match find_first_not_of_0 s 0 with
  | None => Ok (mkBigInt [int_of_char "0"])
  | Some first_non_zero =>
      let valid_part := skipn first_non_zero s in
      ds <- parse_loop (rev valid_part) [] ;;
      Ok (mkBigInt ds)
  end.

(** ** Helper functions *)

Definition is_zero (a : BigInt) : bool :=
  match digits a with
  | [d] => d =? 0
  | _ => false
  end.

(** [while (digits.size() > 1 && digits.back() == 0) digits.pop_back();]
    on the digits read from the back. *)
Fixpoint pop_zeros (back_first : list Z) : list Z :=
  match back_first with
  | d :: (_ :: _) as rest => if d =? 0 then pop_zeros rest else back_first
  | _ => back_first
  end.

Definition remove_leading_zeros (a : BigInt) : BigInt :=
  mkBigInt (rev (pop_zeros (rev (digits a)))).

Definition length (a : BigInt) : nat := List.length (digits a).

(** ** Comparison operators *)

(** The loop of [operator<] over two digit strings of equal size, read from
    the most significant position down: the first mismatch decides. *)
Fixpoint lt_from_back (a b : list Z) : bool :=
  match a, b with
  | x :: a', y :: b' => if negb (x =? y) then x <? y else lt_from_back a' b'
  | _, _ => false
  end.

Definition op_lt (a b : BigInt) : bool :=
  if negb (Nat.eqb (length a) (length b)) then Nat.ltb (length a) (length b)
  else lt_from_back (rev (digits a)) (rev (digits b)).

Fixpoint string_eqb (a b : list Z) : bool :=
  match a, b with
  | [], [] => true
  | x :: a', y :: b' => (x =? y) && string_eqb a' b'
  | _, _ => false
  end.

Definition op_eq (a b : BigInt) : bool := string_eqb (digits a) (digits b).
Definition op_ne (a b : BigInt) : bool := negb (op_eq a b).
Definition op_gt (a b : BigInt) : bool := op_lt b a.
Definition op_le (a b : BigInt) : bool := negb (op_gt a b).
Definition op_ge (a b : BigInt) : bool := negb (op_lt a b).

(** ** Arithmetic *)

(** [l[k] = f(l[k])]; every index the source uses is inside the string. *)
Fixpoint upd (k : nat) (f : Z -> Z) (l : list Z) : list Z :=
  match l, k with
  | [], _ => []
  | x :: l', O => f x :: l'
  | x :: l', S k' => x :: upd k' f l'
  end.

(** One iteration of the loop of [operator+=] at index [i], on the pair of
    the receiver's digits and the carry. *)
Definition add_body (other : list Z) (i : nat) (st : list Z * Z) : list Z * Z :=
  let '(ds, carry) := st in
  let ds := if Nat.eqb i (List.length ds) then ds ++ [0] else ds in
  let other_digit := if Nat.ltb i (List.length other) then nth i other 0 else 0 in
  let sum := nth i ds 0 + other_digit + carry in
  (upd i (fun _ => char_of_int (Z.rem sum 10)) ds, Z.quot sum 10).

(** The iterations at [i >= max_len], which go on while the carry is not
    zero.  There [digits[i]] is the zero just pushed and [other_digit] is
    zero, so that each one divides the carry by ten: [fuel] is taken larger
    than the magnitude of the carry, and never runs out. *)
Fixpoint add_carry (fuel : nat) (other : list Z) (i : nat) (st : list Z * Z) : list Z :=
  match fuel with
  | O => fst st
  | S fuel' =>
      if negb (snd st =? 0) then add_carry fuel' other (S i) (add_body other i st)
      else fst st
  end.

(** [for (int i = 0; i < max_len || carry; i++)]: [n] is [max_len - i]. *)
Fixpoint add_loop (n : nat) (other : list Z) (i : nat) (st : list Z * Z) : list Z :=
  match n with
  | O => add_carry (S (Z.abs_nat (snd st))) other i st
  | S n' => add_loop n' other (S i) (add_body other i st)
  end.

Definition op_add_assign (this other : BigInt) : BigInt :=
  let carry := 0 in
  let max_len := Nat.max (length this) (length other) in
  mkBigInt (add_loop max_len (digits other) 0%nat (digits this, carry)).

(** The loop of [operator-=]; [ds] is [digits] from index [i] on. *)
Fixpoint sub_loop (other : list Z) (i : nat) (ds : list Z) (borrow : Z) : list Z :=
  match ds with
  | [] => []
  | d :: ds' =>
      let other_digit := if Nat.ltb i (List.length other) then nth i other 0 else 0 in
      let diff := d - borrow - other_digit in
      if diff <? 0
      then char_of_int (diff + 10) :: sub_loop other (S i) ds' 1
      else char_of_int diff :: sub_loop other (S i) ds' 0
  end.

(** [operator-=] gives the receiver after the call and the outcome. *)
Definition op_sub_assign (this other : BigInt) : BigInt * outcome unit :=
  if op_lt this other then (this, Throw (underflow_error "Result would be negative"))
  else
    let borrow := 0 in
    (remove_leading_zeros (mkBigInt (sub_loop (digits other) 0%nat (digits this) borrow)), Ok tt).

(** The body of the inner loop of [operator*=]. *)
Definition mul_body (di oj : Z) (i j : nat) (result : list Z) : list Z :=
  let result := upd (i + j) (fun r => r + di * oj) result in
  let result := upd (i + j + 1) (fun r => r + Z.quot (nth (i + j) result 0) 10) result in
  upd (i + j) (fun r => Z.rem r 10) result.

(** [for (int j = 0; j < other.digits.size(); j++)]; [os] is [other.digits]
    from index [j] on. *)
Fixpoint mul_inner (di : Z) (i j : nat) (os : list Z) (result : list Z) : list Z :=
  match os with
  | [] => result
  | oj :: os' => mul_inner di i (S j) os' (mul_body di oj i j result)
  end.

(** [for (int i = 0; i < digits.size(); i++)]; [ds] is [digits] from index
    [i] on. *)
Fixpoint mul_outer (other : list Z) (i : nat) (ds : list Z) (result : list Z) : list Z :=
  match ds with
  | [] => result
  | di :: ds' => mul_outer other (S i) ds' (mul_inner di i 0 other result)
  end.

Definition op_mul_assign (this other : BigInt) : BigInt :=
  if is_zero this || is_zero other then BigInt_ull 0
  else
    let result := repeat 0 (length this + length other) in
    let result := mul_outer (digits other) 0 (digits this) result in
    remove_leading_zeros (mkBigInt (map char_of_int result)).

(** [while (current_dividend >= divisor) { current_dividend -= divisor; count++; }] *)
Fixpoint div_while (fuel : nat) (divisor current_dividend : BigInt) (count : Z)
  : outcome (BigInt * Z) :=
  match fuel with
  | O => OutOfFuel
  | S fuel' =>
      if op_ge current_dividend divisor then
        let '(current_dividend, r) := op_sub_assign current_dividend divisor in
        r ;;
        div_while fuel' divisor current_dividend (count + 1)
      else Ok (current_dividend, count)
  end.

(** [for (int i = digits.size()-1; i >= 0; i--)]; [ds] is [digits] read from
    index [i] down.  The result is the quotient before it is reversed. *)
Fixpoint div_loop (fuel : nat) (divisor : BigInt) (ds : list Z)
    (quotient current_dividend : BigInt) : outcome BigInt :=
  match ds with
  | [] => Ok quotient
  | d :: ds' =>
      let current_dividend :=
        remove_leading_zeros (mkBigInt (d :: digits current_dividend)) in
      '(current_dividend, count) <- div_while fuel divisor current_dividend 0 ;;
      div_loop fuel divisor ds'
        (mkBigInt (digits quotient ++ [char_of_int count])) current_dividend
  end.

(** [operator/=] gives the receiver after the call and the outcome; the
    receiver is assigned only where the source assigns [*this]. *)
Definition op_div_assign (fuel : nat) (this divisor : BigInt) : BigInt * outcome unit :=
  if is_zero divisor then (this, Throw (runtime_error "Division by zero!"))
  else if op_lt this divisor then (BigInt_ull 0, Ok tt)
  else if op_eq this divisor then (BigInt_ull 1, Ok tt)
  else
    match div_loop fuel divisor (rev (digits this)) (BigInt_ull 0) (BigInt_ull 0) with
    | Ok quotient =>
        (remove_leading_zeros (mkBigInt (rev (digits quotient))), Ok tt)
    | Throw e => (this, Throw e)
    | OutOfFuel => (this, OutOfFuel)
    end.

(** ** Non-member operators: the left operand is passed by value *)

Definition op_add (a b : BigInt) : BigInt := op_add_assign a b.

Definition op_sub (a b : BigInt) : outcome BigInt :=
  let '(a, r) := op_sub_assign a b in r ;; Ok a.

Definition op_mul (a b : BigInt) : BigInt := op_mul_assign a b.

Definition op_div (fuel : nat) (a b : BigInt) : outcome BigInt :=
  let '(a, r) := op_div_assign fuel a b in r ;; Ok a.

(** ** Modulo, power and square root *)

Definition op_mod (fuel : nat) (this divisor : BigInt) : outcome BigInt :=
  if is_zero divisor then Throw (runtime_error "Modulo by zero!")
  else
    let remainder := this in
    quotient <- op_div fuel this divisor ;;
    let '(remainder, r) := op_sub_assign remainder (op_mul quotient divisor) in
    r ;; Ok remainder.

(** Modelled from the spec: the source applies [++] to a [BigInt] in [pow]
    and declares no such operator.  The specification describes the counter
    as counting the iterations, one per multiplication, so [++counter] adds
    one. *)
Definition pre_increment (counter : BigInt) : BigInt := op_add_assign counter (BigInt_ull 1).

(** [while (counter < exponent) { result *= *this; ++counter; }] *)
Fixpoint pow_loop (fuel : nat) (this exponent result counter : BigInt) : outcome BigInt :=
  match fuel with
  | O => OutOfFuel
  | S fuel' =>
      if op_lt counter exponent
      then pow_loop fuel' this exponent (op_mul_assign result this) (pre_increment counter)
      else Ok result
  end.

Definition pow (fuel : nat) (this exponent : BigInt) : outcome BigInt :=
  if is_zero exponent then Ok (BigInt_ull 1)
  else pow_loop fuel this exponent (BigInt_ull 1) (BigInt_ull 0).

(** [while (low <= high) { ... }] of [sqrt]. *)
Fixpoint sqrt_loop (fuel : nat) (this low high result : BigInt) : outcome BigInt :=
  match fuel with
  | O => OutOfFuel
  | S fuel' =>
      if op_le low high then
        mid <- op_div fuel' (op_add low high) (BigInt_ull 2) ;;
        let mid_sq := op_mul mid mid in
        if op_eq mid_sq this then Ok mid
        else if op_lt mid_sq this
        then sqrt_loop fuel' this (op_add mid (BigInt_ull 1)) high mid
        else
          high <- op_sub mid (BigInt_ull 1) ;;
          sqrt_loop fuel' this low high result
      else Ok result
  end.

Definition sqrt (fuel : nat) (this : BigInt) : outcome BigInt :=
  if op_lt this (BigInt_ull 0)
  then Throw (invalid_argument "Square root of negative number")
  else if is_zero this || op_eq this (BigInt_ull 1) then Ok this
  else sqrt_loop fuel this (BigInt_ull 1) this (BigInt_ull 0).

(** ** Output *)

(** [os << (int)c]: the decimal text of an [int]. *)
Definition print_int (x : Z) : string :=
  DecimalString.NilZero.string_of_int (Z.to_int x).

(** [operator<<]: the digits from [rbegin()] to [rend()], each printed as an
    [int]. *)
Definition render (num : BigInt) : string :=
  String.concat EmptyString (map print_int (rev (digits num))).

(* ================================================================== *)
(** * Special mathematical functions                                    *)
(* ================================================================== *)

(** [for (int i = 2; i <= n; ++i) result *= BigInt(i);] *)
Fixpoint factorial_loop (fuel : nat) (n i : Z) (result : BigInt) : outcome BigInt :=
  match fuel with
  | O => OutOfFuel
  | S fuel' =>
      if i <=? n
      then factorial_loop fuel' n (int_wrap (i + 1))
             (op_mul_assign result (BigInt_ull (ull_of_int i)))
      else Ok result
  end.

Definition factorial (fuel : nat) (n : Z) : outcome BigInt :=
  if n <? 0 then Throw (invalid_argument "Negative factorial")
  else factorial_loop fuel n 2 (BigInt_ull 1).

(** [for (int i = 2; i <= n; ++i) { BigInt next = a + b; a = b; b = next; }] *)
Fixpoint fibonacci_loop (fuel : nat) (n i : Z) (a b : BigInt) : outcome BigInt :=
  match fuel with
  | O => OutOfFuel
  | S fuel' =>
      if i <=? n
      then
        let next := op_add a b in
        fibonacci_loop fuel' n (int_wrap (i + 1)) b next
      else Ok b
  end.

Definition fibonacci (fuel : nat) (n : Z) : outcome BigInt :=
  let a := BigInt_ull 0 in
  let b := BigInt_ull 1 in
  if n =? 0 then Ok a
  else fibonacci_loop fuel n 2 a b.

Definition catalan (fuel : nat) (n : Z) : outcome BigInt :=
  if n <? 0 then Throw (invalid_argument "Negative Catalan number")
  else
    num <- factorial fuel (int_wrap (2 * n)) ;;
    f1 <- factorial fuel (int_wrap (n + 1)) ;;
    f0 <- factorial fuel n ;;
    let denom := op_mul f1 f0 in
    op_div fuel num denom.

(** The error kind of the specification that an exception of the source
    stands for, by the place that throws it. *)
Definition kind_of_parse (e : exn) : option ErrorKind :=
  match e with invalid_argument _ => Some InvalidFormat | _ => None end.

Definition kind_of (e : exn) : option ErrorKind :=
  match e with
  | invalid_argument _ => Some InvalidArgument
  | underflow_error _ => Some Underflow
  | runtime_error _ => Some DivisionByZero
  end.

(* ================================================================== *)
(** * The number a digit string stands for, and canonical form          *)
(* ================================================================== *)

(** The number denoted by a digit string, least significant digit first. *)
Fixpoint value (l : list Z) : Z :=
  match l with
  | [] => 0
  | d :: l' => d + 10 * value l'
  end.

Definition Z_of (a : BigInt) : Z := value (digits a).

Definition is_digit (d : Z) : Prop := 0 <= d <= 9.
Definition is_digitb (d : Z) : bool := (0 <=? d) && (d <=? 9).

(** Canonical form, as a test: at least one digit, every digit in [0,9], and
    a most significant digit that is zero only in the one-digit string. *)
Definition canonicalb (a : BigInt) : bool :=
  match digits a with
  | [] => false
  | ds => forallb is_digitb ds
          && (Nat.eqb (List.length ds) 1 || negb (last ds 0 =? 0))
  end.

Definition canonical (a : BigInt) : Prop := canonicalb a = true.

(** The same on digit strings, in the form the proofs use. *)
Definition canon (l : list Z) : Prop :=
  l <> [] /\ Forall is_digit l /\ (last l 0 = 0 -> l = [0]).

(** The product of the integers from 1 to [n]; the empty product is one. *)
Definition product_1_to (n : Z) : Z :=
  fold_left Z.mul (map Z.of_nat (seq 1 (Z.to_nat n))) 1.

(** The accumulator of [pow] after [k] multiplications by [base]. *)
Definition k_fold_product (base : BigInt) (k : nat) : BigInt :=
  Nat.iter k (fun result => op_mul_assign result base) (BigInt_ull 1).

(** The digit a decimal character stands for, and back. *)
Definition digit_of_char (c : ascii) : Z := int_of_char c - 48.
Definition char_of_digit (d : Z) : ascii := ascii_of_N (Z.to_N (48 + d)).

Definition is_digit_char (c : ascii) : Prop := isdigit c = true.

(** A digit string, most significant digit first, as a decimal numeral of
    the standard library. *)
Definition Dcons (d : Z) (u : Decimal.uint) : Decimal.uint :=
  match d with
  | 0 => Decimal.D0 u
  | 1 => Decimal.D1 u
  | 2 => Decimal.D2 u
  | 3 => Decimal.D3 u
  | 4 => Decimal.D4 u
  | 5 => Decimal.D5 u
  | 6 => Decimal.D6 u
  | 7 => Decimal.D7 u
  | 8 => Decimal.D8 u
  | 9 => Decimal.D9 u
  | _ => Decimal.Nil
  end.

Fixpoint uint_of_digits (m : list Z) : Decimal.uint :=
  match m with
  | [] => Decimal.Nil
  | d :: m' => Dcons d (uint_of_digits m')
  end.

(** The ordinary decimal text of an integer, as the standard library
    writes it. *)
Definition decimal_string (x : Z) : string :=
  DecimalString.NilZero.string_of_int (Z.to_int x).

(* ================================================================== *)
(** * Input, and the numbers of the special functions                   *)
(* ================================================================== *)

(** [isspace] in the "C" locale: the space and the characters 9 to 13. *)
Definition isspace (c : ascii) : bool :=
  (int_of_char c =? 32) || ((9 <=? int_of_char c) && (int_of_char c <=? 13)).

(** The unread characters of the input stream in its good state.  The
    extraction [is >> s] of a [std::string] first skips the white space. *)
Fixpoint skip_ws (input : list ascii) : list ascii :=
  match input with
  | [] => []
  | c :: input' => if isspace c then skip_ws input' else input
  end.

(** It then extracts characters up to the next white space or the end of
    the input: the extracted characters and the unread rest. *)
Fixpoint read_token (input : list ascii) : list ascii * list ascii :=
  match input with
  | [] => ([], [])
  | c :: input' =>
      if isspace c then ([], input)
      else let '(s, rest) := read_token input' in (c :: s, rest)
  end.

(** The unread input is at its end or at a white space. *)
Definition starts_with_space (rest : list ascii) : Prop :=
  match rest with
  | [] => True
  | c :: _ => isspace c = true
  end.

(** [operator>>]: [string s; is >> s; num = BigInt(s);].  The result is the
    unread input, [num] after the call and the outcome; [num] is assigned
    only when the constructor returns.  When nothing is extracted [s] is
    the empty string. *)
Definition op_extract (input : list ascii) (num : BigInt)
  : list ascii * BigInt * outcome unit :=
  let '(s, input) := read_token (skip_ws input) in
  match BigInt_str (string_of_list_ascii s) with
  | Ok v => (input, v, Ok tt)
  | Throw e => (input, num, Throw e)
  | OutOfFuel => (input, num, OutOfFuel)
  end.

(** The Fibonacci numbers. *)
Fixpoint fib (n : nat) : Z :=
  match n with
  | O => 0
  | S m => match m with
           | O => 1
           | S k => fib k + fib m
           end
  end.

(** The binomial coefficients, by Pascal's rule, and the Catalan numbers as
    the difference of two of them. *)
Fixpoint binom (n k : nat) : Z :=
  match n, k with
  | _, O => 1
  | O, S _ => 0
  | S n', S k' => binom n' k' + binom n' k
  end.

Definition catalan_number (n : nat) : Z := binom (2 * n) n - binom (2 * n) (S n).

(* ================================================================== *)
(** * Digit strings                                                     *)
(* ================================================================== *)

Section Digits.

Lemma char_of_int_small x : -128 <= x <= 127 -> char_of_int x = x.
Proof.
  intros H. unfold char_of_int. rewrite Z.mod_small; lia.
Qed.

Lemma char_of_int_digit d : is_digit d -> char_of_int d = d.
Proof. intros [H0 H9]. apply char_of_int_small. lia. Qed.

Lemma is_digitb_spec d : is_digitb d = true <-> is_digit d.
Proof. unfold is_digitb, is_digit. rewrite andb_true_iff, !Z.leb_le. tauto. Qed.

Lemma value_app l1 l2 :
  value (l1 ++ l2) = value l1 + 10 ^ Z.of_nat (List.length l1) * value l2.
Proof.
  induction l1 as [|d l1 IH]; cbn [value app List.length].
  - rewrite Z.pow_0_r. lia.
  - rewrite IH, Nat2Z.inj_succ, Z.pow_succ_r by lia. ring.
Qed.

Lemma pow10_pos n : 0 < 10 ^ Z.of_nat n.
Proof. apply Z.pow_pos_nonneg; lia. Qed.

Lemma pow10_succ n : 10 ^ Z.of_nat (S n) = 10 * 10 ^ Z.of_nat n.
Proof. rewrite Nat2Z.inj_succ, Z.pow_succ_r by lia. reflexivity. Qed.

Lemma pow10_mono n m : (n <= m)%nat -> 10 ^ Z.of_nat n <= 10 ^ Z.of_nat m.
Proof. intros H. apply Z.pow_le_mono_r; lia. Qed.

Lemma value_bound l : Forall is_digit l -> 0 <= value l < 10 ^ Z.of_nat (List.length l).
Proof.
  induction 1 as [|d l Hd _ IH]; cbn [value List.length].
  - rewrite Z.pow_0_r. lia.
  - rewrite pow10_succ. unfold is_digit in Hd. lia.
Qed.

Lemma value_nonneg l : Forall is_digit l -> 0 <= value l.
Proof. intros H. apply value_bound in H. lia. Qed.

(** Two strings of digits of one length that denote one number are equal. *)
Lemma value_inj l1 : forall l2,
  Forall is_digit l1 -> Forall is_digit l2 ->
  List.length l1 = List.length l2 -> value l1 = value l2 -> l1 = l2.
Proof.
  induction l1 as [|d1 l1 IH]; intros [|d2 l2] H1 H2 Hlen Hv; try discriminate.
  - reflexivity.
  - inversion H1 as [|? ? Hd1 Hl1]; inversion H2 as [|? ? Hd2 Hl2]; subst.
    cbn [value] in Hv. unfold is_digit in *.
    assert (d1 = d2) by lia. subst d2.
    f_equal. apply IH; auto. lia.
Qed.

Lemma last_app_single (l : list Z) x d : last (l ++ [x]) d = x.
Proof. apply last_last. Qed.

(** A digit string splits into its most significant digit and the rest. *)
Lemma split_last (l : list Z) : l <> [] -> exists l' x, l = l' ++ [x].
Proof.
  intros H. destruct (exists_last H) as [l' [x E]]. eauto.
Qed.

Lemma canon_lower l :
  canon l -> (1 < List.length l)%nat -> 10 ^ Z.of_nat (List.length l - 1) <= value l.
Proof.
  intros (Hne & Hd & Hlast) Hlen.
  destruct (split_last l Hne) as (l' & x & ->).
  rewrite last_app_single in Hlast.
  apply Forall_app in Hd. destruct Hd as [Hd' Hx].
  inversion Hx as [|? ? Hx' _]; subst. unfold is_digit in Hx'.
  rewrite length_app in *. cbn [List.length] in *.
  replace (List.length l' + 1 - 1)%nat with (List.length l') by lia.
  rewrite value_app. cbn [value].
  assert (x <> 0).
  { intros ->. specialize (Hlast Logic.eq_refl).
    apply (f_equal (@List.length Z)) in Hlast. rewrite length_app in Hlast.
    cbn in Hlast. lia. }
  pose proof (value_nonneg l' Hd'). pose proof (pow10_pos (List.length l')). nia.
Qed.

(** A string of digits that is as large as its length allows is canonical. *)
Lemma canon_of_lower l :
  l <> [] -> Forall is_digit l ->
  (List.length l = 1%nat \/ 10 ^ Z.of_nat (List.length l - 1) <= value l) ->
  canon l.
Proof.
  intros Hne Hd Hlow. repeat split; auto.
  intros Hlast.
  destruct (split_last l Hne) as (l' & x & ->).
  rewrite last_app_single in Hlast. subst x.
  destruct l' as [|y l']; [reflexivity|exfalso].
  destruct Hlow as [Hlow|Hlow].
  - rewrite length_app in Hlow. cbn in Hlow. lia.
  - apply Forall_app in Hd. destruct Hd as [Hd' _].
    apply value_bound in Hd'.
    rewrite length_app in Hlow. cbn [List.length] in *.
    replace (S (List.length l') + 1 - 1)%nat with (S (List.length l')) in Hlow by lia.
    rewrite value_app in Hlow. cbn [value List.length] in *. lia.
Qed.

Lemma canon_length_lt l1 l2 :
  canon l1 -> canon l2 -> (List.length l1 < List.length l2)%nat -> value l1 < value l2.
Proof.
  intros H1 H2 Hlen.
  pose proof (canon_lower l2 H2 ltac:(destruct H1 as [Hne _]; destruct l1; [congruence|cbn in *; lia])) as Hlow.
  destruct H1 as (_ & Hd1 & _). apply value_bound in Hd1.
  pose proof (pow10_mono (List.length l1) (List.length l2 - 1) ltac:(lia)). lia.
Qed.

(** Canonical strings that denote one number are equal. *)
Lemma canon_inj l1 l2 : canon l1 -> canon l2 -> value l1 = value l2 -> l1 = l2.
Proof.
  intros H1 H2 Hv.
  destruct (Nat.lt_trichotomy (List.length l1) (List.length l2)) as [Hlt|[Heq|Hgt]].
  - pose proof (canon_length_lt _ _ H1 H2 Hlt). lia.
  - destruct H1 as (_ & Hd1 & _), H2 as (_ & Hd2 & _). apply value_inj; auto.
  - pose proof (canon_length_lt _ _ H2 H1 Hgt). lia.
Qed.

Lemma canonical_iff a :
  canonical a <->
  digits a <> [] /\ Forall (fun d => 0 <= d <= 9) (digits a)
  /\ (last (digits a) 0 = 0 -> digits a = [0]).
Proof.
  unfold canonical, canonicalb. destruct a as [ds]. cbn [digits].
  destruct ds as [|d ds].
  - split; [discriminate|intros [H _]; congruence].
  - set (l := d :: ds). rewrite andb_true_iff, orb_true_iff, forallb_forall, Forall_forall.
    rewrite negb_true_iff, Z.eqb_neq, Nat.eqb_eq.
    split.
    + intros [Hd Hl]. split; [discriminate|]. split.
      * intros x Hx. apply is_digitb_spec. auto.
      * intros Hlast. destruct Hl as [Hl|Hl]; [|contradiction].
        subst l. destruct ds; [cbn in Hlast; congruence|discriminate].
    + intros (_ & Hd & Hlast). split.
      * intros x Hx. apply is_digitb_spec. apply Hd. exact Hx.
      * destruct (Z.eq_dec (last l 0) 0) as [E|E]; [left|right; exact E].
        rewrite (Hlast E). reflexivity.
Qed.

Lemma canonical_canon a : canonical a <-> canon (digits a).
Proof. rewrite canonical_iff. unfold canon, is_digit. tauto. Qed.

End Digits.

(* ================================================================== *)
(** * Normalisation and the comparison operators                        *)
(* ================================================================== *)

Section Ordering.

Lemma pop_zeros_value m : value (rev (pop_zeros m)) = value (rev m).
Proof.
  induction m as [|d m IH]; [reflexivity|].
  cbn [pop_zeros]. destruct m as [|e m]; [reflexivity|].
  destruct (Z.eqb_spec d 0) as [->|Hd]; [|reflexivity].
  rewrite IH. change (rev (0 :: e :: m)) with (rev (e :: m) ++ [0]).
  rewrite value_app. cbn [value]. lia.
Qed.

Lemma pop_zeros_Forall (P : Z -> Prop) m : Forall P m -> Forall P (pop_zeros m).
Proof.
  induction m as [|d m IH]; intros H; [exact H|].
  cbn [pop_zeros]. destruct m as [|e m]; [exact H|].
  destruct (d =? 0); [|exact H].
  apply IH. inversion H; assumption.
Qed.

Lemma pop_zeros_nonnil m : m <> [] -> pop_zeros m <> [].
Proof.
  induction m as [|d m IH]; intros H; [congruence|].
  cbn [pop_zeros]. destruct m as [|e m]; [exact H|].
  destruct (d =? 0); [|exact H].
  apply IH. discriminate.
Qed.

(** After the loop the string has one digit or a non-zero back. *)
Lemma pop_zeros_head m :
  m <> [] -> (exists d, pop_zeros m = [d]) \/ hd 0 (pop_zeros m) <> 0.
Proof.
  induction m as [|d m IH]; intros H; [congruence|].
  cbn [pop_zeros]. destruct m as [|e m]; [left; eauto|].
  destruct (Z.eqb_spec d 0) as [->|Hd].
  - apply IH. discriminate.
  - right. exact Hd.
Qed.

Lemma last_rev_hd (m : list Z) : last (rev m) 0 = hd 0 m.
Proof.
  destruct m as [|d m]; [reflexivity|]. cbn [rev hd]. apply last_app_single.
Qed.

Lemma rlz_canon l :
  l <> [] -> Forall is_digit l ->
  canon (digits (remove_leading_zeros (mkBigInt l))).
Proof.
  intros Hne Hd. unfold remove_leading_zeros. cbn [digits].
  assert (Hr : rev l <> []).
  { intros E. apply (f_equal (@rev Z)) in E. rewrite rev_involutive in E. auto. }
  repeat split.
  - intros E. apply (f_equal (@rev Z)) in E. rewrite rev_involutive in E.
    cbn in E. revert E. apply pop_zeros_nonnil. exact Hr.
  - apply Forall_rev. apply pop_zeros_Forall. apply Forall_rev. exact Hd.
  - rewrite last_rev_hd. intros E.
    destruct (pop_zeros_head (rev l) Hr) as [[d Hp]|Hp]; [|contradiction].
    rewrite Hp in *. cbn in E. subst d. reflexivity.
Qed.

Lemma rlz_value l : Z_of (remove_leading_zeros (mkBigInt l)) = value l.
Proof.
  unfold Z_of, remove_leading_zeros. cbn [digits].
  rewrite pop_zeros_value, rev_involutive. reflexivity.
Qed.

(** A canonical string is left as it is. *)
Lemma pop_zeros_canon l : canon l -> rev (pop_zeros (rev l)) = l.
Proof.
  intros (Hne & Hd & Hlast).
  destruct (split_last l Hne) as (l' & x & ->).
  rewrite last_app_single in Hlast.
  rewrite rev_app_distr. cbn [rev app pop_zeros].
  destruct (rev l') as [|e m] eqn:E.
  - cbn. apply (f_equal (@rev Z)) in E. rewrite rev_involutive in E. subst l'. reflexivity.
  - destruct (Z.eqb_spec x 0) as [->|Hx].
    + specialize (Hlast Logic.eq_refl). apply (f_equal (@List.length Z)) in Hlast.
      rewrite length_app in Hlast. apply (f_equal (@List.length Z)) in E.
      rewrite length_rev in E. cbn in *. lia.
    + rewrite <- E. change (rev (x :: rev l')) with (rev (rev l') ++ [x]).
      rewrite rev_involutive. reflexivity.
Qed.

Lemma rlz_canonical a : canonical a -> remove_leading_zeros a = a.
Proof.
  intros H. apply canonical_canon in H. destruct a as [l]. cbn [digits] in H.
  unfold remove_leading_zeros. cbn [digits]. rewrite pop_zeros_canon; auto.
Qed.

(** [lt_from_back] on two strings of digits of one length compares the
    numbers. *)
Lemma lt_from_back_value l1 : forall l2,
  Forall is_digit l1 -> Forall is_digit l2 -> List.length l1 = List.length l2 ->
  lt_from_back (rev l1) (rev l2) = (value l1 <? value l2).
Proof.
  induction l1 as [|x l1 IH] using rev_ind; intros l2 H1 H2 Hlen.
  - destruct l2; [reflexivity|discriminate].
  - destruct l2 as [|y l2 _] using rev_ind.
    { rewrite length_app in Hlen. cbn in Hlen. lia. }
    rewrite !rev_app_distr. cbn [rev app lt_from_back].
    apply Forall_app in H1. destruct H1 as [H1 Hx].
    apply Forall_app in H2. destruct H2 as [H2 Hy].
    inversion Hx as [|? ? Hx' _]; inversion Hy as [|? ? Hy' _]; subst.
    rewrite !length_app in Hlen. cbn [List.length] in Hlen.
    assert (Hl : List.length l1 = List.length l2) by lia.
    rewrite !value_app. cbn [value]. rewrite Hl.
    pose proof (value_bound l1 H1) as B1. pose proof (value_bound l2 H2) as B2.
    rewrite Hl in B1.
    pose proof (pow10_pos (List.length l2)) as Hp.
    unfold is_digit in *.
    destruct (Z.eqb_spec x y) as [->|Hxy]; cbn [negb].
    + rewrite (IH l2 H1 H2 Hl).
      destruct (Z.ltb_spec (value l1) (value l2)), 
               (Z.ltb_spec (value l1 + 10 ^ Z.of_nat (List.length l2) * (y + 10 * 0))
                           (value l2 + 10 ^ Z.of_nat (List.length l2) * (y + 10 * 0)));
        auto; lia.
    + destruct (Z.ltb_spec x y),
               (Z.ltb_spec (value l1 + 10 ^ Z.of_nat (List.length l2) * (x + 10 * 0))
                           (value l2 + 10 ^ Z.of_nat (List.length l2) * (y + 10 * 0)));
        auto; nia.
Qed.

Lemma op_lt_value a b : canonical a -> canonical b -> op_lt a b = (Z_of a <? Z_of b).
Proof.
  intros Ha Hb. apply canonical_canon in Ha, Hb.
  unfold op_lt, length, Z_of.
  destruct (Nat.eqb_spec (List.length (digits a)) (List.length (digits b))) as [E|E];
    cbn [negb].
  - apply lt_from_back_value; auto; [apply Ha|apply Hb].
  - destruct (Nat.ltb_spec (List.length (digits a)) (List.length (digits b))) as [L|L].
    + pose proof (canon_length_lt _ _ Ha Hb L). symmetry. apply Z.ltb_lt. lia.
    + pose proof (canon_length_lt _ _ Hb Ha ltac:(lia)). symmetry. apply Z.ltb_ge. lia.
Qed.

Lemma string_eqb_eq l1 : forall l2, string_eqb l1 l2 = true <-> l1 = l2.
Proof.
  induction l1 as [|x l1 IH]; intros [|y l2]; cbn [string_eqb];
    try (split; [discriminate|congruence]); [tauto|].
  rewrite andb_true_iff, Z.eqb_eq, IH. split; [intros [-> ->]; reflexivity|].
  intros E. inversion E. auto.
Qed.

Lemma op_eq_true a b : op_eq a b = true <-> a = b.
Proof.
  unfold op_eq. rewrite string_eqb_eq. destruct a, b. cbn [digits].
  split; congruence.
Qed.

Lemma op_eq_value a b : canonical a -> canonical b -> op_eq a b = (Z_of a =? Z_of b).
Proof.
  intros Ha Hb. apply canonical_canon in Ha, Hb.
  destruct (Z.eqb_spec (Z_of a) (Z_of b)) as [E|E].
  - apply op_eq_true. pose proof (canon_inj _ _ Ha Hb E).
    destruct a, b. cbn [digits] in *. congruence.
  - destruct (op_eq a b) eqn:Q; [|reflexivity].
    apply op_eq_true in Q. subst b. congruence.
Qed.

Lemma op_le_value a b : canonical a -> canonical b -> op_le a b = (Z_of a <=? Z_of b).
Proof.
  intros Ha Hb. unfold op_le, op_gt. rewrite op_lt_value by assumption.
  destruct (Z.ltb_spec (Z_of b) (Z_of a)), (Z.leb_spec (Z_of a) (Z_of b)); auto; lia.
Qed.

Lemma op_ge_value a b : canonical a -> canonical b -> op_ge a b = (Z_of b <=? Z_of a).
Proof.
  intros Ha Hb. unfold op_ge. rewrite op_lt_value by assumption.
  destruct (Z.ltb_spec (Z_of a) (Z_of b)), (Z.leb_spec (Z_of b) (Z_of a)); auto; lia.
Qed.

Lemma canonical_inj a b : canonical a -> canonical b -> Z_of a = Z_of b -> a = b.
Proof.
  intros Ha Hb E. apply canonical_canon in Ha, Hb.
  pose proof (canon_inj _ _ Ha Hb E). destruct a, b. cbn [digits] in *. congruence.
Qed.

Lemma canonical_nonneg a : canonical a -> 0 <= Z_of a.
Proof. intros H. apply canonical_canon in H. apply value_nonneg, H. Qed.

Lemma is_zero_value a : canonical a -> is_zero a = (Z_of a =? 0).
Proof.
  intros H. apply canonical_canon in H. destruct H as (Hne & Hd & Hlast).
  unfold is_zero, Z_of. destruct (digits a) as [|d [|e l]] eqn:E; [congruence| |].
  - cbn [value]. f_equal. lia.
  - symmetry. apply Z.eqb_neq. intros V.
    assert (C : canon (d :: e :: l)) by (repeat split; auto).
    pose proof (canon_lower _ C ltac:(cbn; lia)) as L.
    pose proof (pow10_pos (List.length (d :: e :: l) - 1)). lia.
Qed.

End Ordering.

(* ================================================================== *)
(** * Construction from a native integer                                *)
(* ================================================================== *)

Section Construction.

Lemma ull_loop_spec fuel : forall n ds,
  0 <= n < 10 ^ Z.of_nat fuel -> (0 < fuel)%nat ->
  exists dl, ull_loop fuel n ds = ds ++ dl /\ dl <> [] /\ Forall is_digit dl
             /\ value dl = n
             /\ (List.length dl = 1%nat \/ 10 ^ Z.of_nat (List.length dl - 1) <= n).
Proof.
  induction fuel as [|fuel IH]; intros n ds Hn Hf; [lia|].
  cbn [ull_loop].
  rewrite pow10_succ in Hn.
  assert (Hrem : Z.rem n 10 = n mod 10) by (apply Z.rem_mod_nonneg; lia).
  assert (Hquot : Z.quot n 10 = n / 10) by (apply Z.quot_div_nonneg; lia).
  rewrite Hrem, Hquot.
  pose proof (Z.mod_pos_bound n 10 ltac:(lia)) as Hm.
  pose proof (Z.div_mod n 10 ltac:(lia)) as Hdm.
  rewrite char_of_int_digit by (unfold is_digit; lia).
  destruct (Z.gtb_spec (n / 10) 0) as [Hpos|Hzero].
  - assert (Hf' : (0 < fuel)%nat).
    { destruct fuel; [|lia]. rewrite Z.pow_0_r in Hn. lia. }
    destruct (IH (n / 10) (ds ++ [n mod 10]) ltac:(lia) Hf')
      as (dl & E & Hne & Hd & Hv & Hlow).
    exists (n mod 10 :: dl). rewrite E, <- app_assoc. cbn [app].
    repeat split; [discriminate| |cbn [value]; lia|].
    + constructor; [unfold is_digit; lia|exact Hd].
    + right. cbn [List.length]. rewrite Nat.sub_succ, Nat.sub_0_r.
      destruct Hlow as [Hlow|Hlow].
      * rewrite Hlow. change (10 ^ Z.of_nat 1) with 10. lia.
      * destruct (List.length dl) as [|k] eqn:Ek; [destruct dl; [congruence|discriminate]|].
        rewrite pow10_succ. rewrite Nat.sub_succ, Nat.sub_0_r in Hlow. lia.
  - exists [n mod 10]. repeat split; [discriminate| |cbn [value]; lia|left; reflexivity].
    constructor; [unfold is_digit; lia|constructor].
Qed.

Lemma BigInt_ull_spec n :
  in_ull n -> canonical (BigInt_ull n) /\ Z_of (BigInt_ull n) = n.
Proof.
  intros [H0 Hmax]. unfold ULLONG_MAX in Hmax.
  destruct (ull_loop_spec 20 n [] ltac:(change (10 ^ Z.of_nat 20) with 100000000000000000000; lia) ltac:(lia))
    as (dl & E & Hne & Hd & Hv & Hlow).
  unfold BigInt_ull, Z_of. rewrite E. cbn [app digits]. split; [|exact Hv].
  apply canonical_canon. cbn [digits]. apply canon_of_lower; auto.
  rewrite Hv. exact Hlow.
Qed.

Lemma BigInt_ull_canonical n : in_ull n -> canonical (BigInt_ull n).
Proof. intros H. apply BigInt_ull_spec, H. Qed.

Lemma BigInt_ull_value n : in_ull n -> Z_of (BigInt_ull n) = n.
Proof. intros H. apply BigInt_ull_spec, H. Qed.

End Construction.

(* ================================================================== *)
(** * Addition and subtraction                                          *)
(* ================================================================== *)

Section Additive.

Lemma nth_length_app (pre : list Z) x r d : nth (List.length pre) (pre ++ x :: r) d = x.
Proof. induction pre; cbn; auto. Qed.

Lemma upd_length_app f (pre : list Z) x r :
  upd (List.length pre) f (pre ++ x :: r) = pre ++ f x :: r.
Proof. induction pre as [|y pre IH]; cbn; [reflexivity|]. rewrite IH. reflexivity. Qed.

Lemma other_digit_nth (other : list Z) i :
  (if Nat.ltb i (List.length other) then nth i other 0 else 0) = nth i other 0.
Proof.
  destruct (Nat.ltb_spec i (List.length other)); [reflexivity|].
  symmetry. apply nth_overflow. assumption.
Qed.

Lemma skipn_value (l : list Z) i :
  value (skipn i l) = nth i l 0 + 10 * value (skipn (S i) l).
Proof.
  revert i. induction l as [|x l IH]; intros i.
  - rewrite !skipn_nil. destruct i; reflexivity.
  - destruct i; [reflexivity|]. cbn [skipn nth]. apply IH.
Qed.

Lemma skipn_digit (l : list Z) i :
  Forall is_digit (skipn i l) -> is_digit (nth i l 0) /\ Forall is_digit (skipn (S i) l).
Proof.
  revert i. induction l as [|x l IH]; intros i H.
  - rewrite skipn_nil. destruct i; cbn; split; try constructor; unfold is_digit; lia.
  - destruct i; [inversion H; auto|]. cbn [skipn nth] in *. apply IH. exact H.
Qed.

Lemma skipn_length_S (l : list Z) i :
  List.length (skipn (S i) l) = (List.length (skipn i l) - 1)%nat.
Proof. rewrite !length_skipn. lia. Qed.

Lemma add_body_app other pre ra c :
  add_body other (List.length pre) (pre ++ ra, c) =
  (pre ++ char_of_int (Z.rem (hd 0 ra + nth (List.length pre) other 0 + c) 10) :: tl ra,
   Z.quot (hd 0 ra + nth (List.length pre) other 0 + c) 10).
Proof.
  unfold add_body. rewrite other_digit_nth.
  destruct ra as [|x ra]; cbn [hd tl].
  - rewrite app_nil_r, Nat.eqb_refl, nth_length_app, upd_length_app. reflexivity.
  - replace (Nat.eqb (List.length pre) (List.length (pre ++ x :: ra))) with false.
    + rewrite nth_length_app, upd_length_app. reflexivity.
    + symmetry. apply Nat.eqb_neq. rewrite length_app. cbn. lia.
Qed.

Lemma quot10_smaller c : c <> 0 -> (Z.abs_nat (Z.quot c 10) < Z.abs_nat c)%nat.
Proof.
  intros Hc. apply Nat2Z.inj_lt. rewrite !Zabs2Nat.id_abs.
  rewrite <- Z.quot_abs by lia.
  change (Z.abs 10) with 10. rewrite Z.quot_div_nonneg by lia.
  apply Z.div_lt; lia.
Qed.

(** Above [max_len] an iteration appends the last digit of the carry and
    divides the carry by ten. *)
Lemma add_body_above other ds c :
  (List.length other <= List.length ds)%nat ->
  add_body other (List.length ds) (ds, c)
  = (ds ++ [char_of_int (Z.rem c 10)], Z.quot c 10).
Proof.
  intros H. pose proof (add_body_app other ds [] c) as E.
  rewrite List.app_nil_r in E. rewrite E. cbn [hd tl].
  rewrite (nth_overflow other) by exact H. reflexivity.
Qed.

(** The fuel that [add_loop] gives to [add_carry] is enough: more fuel does
    not change the result. *)
Lemma add_carry_fuel fuel : forall fuel' other ds c,
  (List.length other <= List.length ds)%nat ->
  (Z.abs_nat c < fuel)%nat -> (Z.abs_nat c < fuel')%nat ->
  add_carry fuel other (List.length ds) (ds, c)
  = add_carry fuel' other (List.length ds) (ds, c).
Proof.
  induction fuel as [|fuel IH]; intros fuel' other ds c Hlen Hf Hf'; [lia|].
  destruct fuel' as [|fuel']; [lia|].
  cbn [add_carry fst snd]. destruct (Z.eqb_spec c 0) as [->|Hc]; [reflexivity|].
  cbn [negb]. rewrite add_body_above by exact Hlen.
  replace (S (List.length ds)) with (List.length (ds ++ [char_of_int (Z.rem c 10)]))
    by (rewrite length_app; cbn; lia).
  pose proof (quot10_smaller c Hc).
  apply IH; [rewrite length_app; lia|lia|lia].
Qed.

Lemma add_loop_spec n : forall other pre ra c,
  Forall is_digit ra -> Forall is_digit (skipn (List.length pre) other) ->
  (c = 0 \/ c = 1) ->
  (List.length ra <= n)%nat -> (List.length (skipn (List.length pre) other) <= n)%nat ->
  exists lo cf,
    add_loop n other (List.length pre) (pre ++ ra, c)
      = pre ++ lo ++ (if cf =? 0 then [] else [1])
    /\ List.length lo = n /\ Forall is_digit lo /\ (cf = 0 \/ cf = 1)
    /\ value lo + 10 ^ Z.of_nat n * cf
       = value ra + value (skipn (List.length pre) other) + c.
Proof.
  induction n as [|n IH]; intros other pre ra c Hra Hrb Hc Lra Lrb.
  - destruct ra; [|cbn in Lra; lia].
    assert (Hov : (List.length other <= List.length pre)%nat)
      by (rewrite length_skipn in Lrb; lia).
    rewrite (skipn_all2 other Hov).
    cbn [add_loop snd]. destruct Hc as [-> | ->].
    + exists [], 0. cbn. rewrite app_nil_r. repeat split; auto.
    + exists [], 1. cbn [add_carry Z.abs_nat snd fst negb Z.eqb].
      rewrite add_body_app. cbn [hd tl snd fst].
      rewrite (nth_overflow other) by exact Hov.
      cbn. repeat split; auto.
  - cbn [add_loop]. rewrite add_body_app.
    pose proof (skipn_digit _ _ Hrb) as [Hy Hrb'].
    pose proof (skipn_value other (List.length pre)) as Vb.
    set (y := nth (List.length pre) other 0) in *.
    set (x := hd 0 ra).
    assert (Hx : is_digit x).
    { subst x. destruct ra; cbn; [unfold is_digit; lia|inversion Hra; auto]. }
    assert (Htl : Forall is_digit (tl ra)).
    { destruct ra; cbn; [constructor|inversion Hra; auto]. }
    assert (Vra : value ra = x + 10 * value (tl ra)).
    { subst x. destruct ra; cbn; lia. }
    unfold is_digit in Hx, Hy.
    assert (Hs : 0 <= x + y + c <= 19) by lia.
    assert (Hrem : Z.rem (x + y + c) 10 = (x + y + c) mod 10)
      by (apply Z.rem_mod_nonneg; lia).
    assert (Hquot : Z.quot (x + y + c) 10 = (x + y + c) / 10)
      by (apply Z.quot_div_nonneg; lia).
    rewrite Hrem, Hquot.
    pose proof (Z.mod_pos_bound (x + y + c) 10 ltac:(lia)) as Hm.
    pose proof (Z.div_mod (x + y + c) 10 ltac:(lia)) as Hdm.
    rewrite char_of_int_digit by (unfold is_digit; lia).
    set (v := (x + y + c) mod 10) in *. set (c' := (x + y + c) / 10) in *.
    assert (Hc' : c' = 0 \/ c' = 1) by lia.
    assert (Epre : List.length (pre ++ [v]) = S (List.length pre))
      by (rewrite length_app; cbn; lia).
    destruct (IH other (pre ++ [v]) (tl ra) c') as (lo & cf & E & Hlen & Hlo & Hcf & Hv).
    + exact Htl.
    + rewrite Epre. exact Hrb'.
    + exact Hc'.
    + destruct ra; cbn in *; lia.
    + rewrite Epre, skipn_length_S. lia.
    + exists (v :: lo), cf. rewrite Epre in E, Hv.
      change (pre ++ v :: tl ra) with (pre ++ [v] ++ tl ra). rewrite app_assoc, E.
      rewrite <- !app_assoc. cbn [app List.length value].
      repeat split; auto.
      * constructor; [unfold is_digit; lia|exact Hlo].
      * rewrite pow10_succ. lia.
Qed.

Lemma op_add_assign_spec a b :
  canonical a -> canonical b ->
  canonical (op_add_assign a b) /\ Z_of (op_add_assign a b) = Z_of a + Z_of b.
Proof.
  intros Ha Hb. apply canonical_canon in Ha, Hb.
  unfold op_add_assign, length, Z_of. cbn [digits].
  set (n := Nat.max (List.length (digits a)) (List.length (digits b))).
  destruct (add_loop_spec n (digits b) [] (digits a) 0)
    as (lo & cf & E & Hlen & Hlo & Hcf & Hv);
    try (cbn [List.length skipn]; first [apply Ha | apply Hb | lia]).
  cbn [List.length skipn app] in E, Hv. rewrite E.
  assert (La : (0 < List.length (digits a))%nat).
  { destruct Ha as [Hne _]. destruct (digits a); [congruence|cbn [List.length]; lia]. }
  assert (Hn : (0 < n)%nat) by (subst n; lia).
  assert (Hval : value (lo ++ (if cf =? 0 then [] else [1]))
                 = value (digits a) + value (digits b)).
  { rewrite value_app, Hlen. destruct Hcf as [-> | ->]; cbn [Z.eqb value]; lia. }
  split; [|exact Hval].
  apply canonical_canon. cbn [digits]. apply canon_of_lower.
  - destruct lo; [cbn in Hlen; lia|discriminate].
  - apply Forall_app. split; [exact Hlo|].
    destruct (cf =? 0); repeat constructor; unfold is_digit; lia.
  - rewrite Hval, length_app, Hlen.
    pose proof (value_nonneg _ (proj1 (proj2 Ha))).
    pose proof (value_nonneg _ (proj1 (proj2 Hb))).
    destruct Hcf as [-> | ->]; cbn [Z.eqb List.length].
    + destruct (Nat.eq_dec n 1) as [->|Hn1]; [left; reflexivity|right].
      rewrite Nat.add_0_r.
      destruct (Nat.max_spec (List.length (digits a)) (List.length (digits b)))
        as [[_ Em]|[_ Em]]; fold n in Em.
      * pose proof (canon_lower _ Hb ltac:(lia)) as L. rewrite <- Em in L. lia.
      * pose proof (canon_lower _ Ha ltac:(lia)) as L. rewrite <- Em in L. lia.
    + right. replace (n + 1 - 1)%nat with n by lia.
      pose proof (value_nonneg _ Hlo). lia.
Qed.

Lemma sub_loop_spec ra : forall other i borrow,
  Forall is_digit ra -> Forall is_digit (skipn i other) ->
  (borrow = 0 \/ borrow = 1) ->
  (List.length (skipn i other) <= List.length ra)%nat ->
  exists bout,
    (bout = 0 \/ bout = 1)
    /\ List.length (sub_loop other i ra borrow) = List.length ra
    /\ Forall is_digit (sub_loop other i ra borrow)
    /\ value (sub_loop other i ra borrow)
       = value ra - value (skipn i other) - borrow
         + 10 ^ Z.of_nat (List.length ra) * bout.
Proof.
  induction ra as [|d ra IH]; intros other i borrow Hra Hrb Hb Hlen.
  - exists borrow. cbn [sub_loop List.length value].
    destruct (skipn i other); [|cbn in Hlen; lia].
    cbn [value]. rewrite Z.pow_0_r. repeat split; auto. lia.
  - cbn [sub_loop]. rewrite other_digit_nth.
    pose proof (skipn_digit _ _ Hrb) as [Hy Hrb'].
    pose proof (skipn_value other i) as Vb.
    inversion Hra as [|? ? Hd Hra']; subst.
    set (y := nth i other 0) in *. unfold is_digit in Hd, Hy.
    assert (Hl' : (List.length (skipn (S i) other) <= List.length ra)%nat).
    { rewrite skipn_length_S. cbn in Hlen. lia. }
    destruct (Z.ltb_spec (d - borrow - y) 0) as [Hneg|Hpos].
    + destruct (IH other (S i) 1 Hra' Hrb' ltac:(auto) Hl')
        as (bout & Hbo & Hl & Hdig & Hv).
      exists bout. rewrite char_of_int_digit by (unfold is_digit; lia).
      cbn [List.length value]. rewrite Hv, pow10_succ.
      repeat split; auto; [constructor; [unfold is_digit; lia|exact Hdig]|lia].
    + destruct (IH other (S i) 0 Hra' Hrb' ltac:(auto) Hl')
        as (bout & Hbo & Hl & Hdig & Hv).
      exists bout. rewrite char_of_int_digit by (unfold is_digit; lia).
      cbn [List.length value]. rewrite Hv, pow10_succ.
      repeat split; auto; [constructor; [unfold is_digit; lia|exact Hdig]|lia].
Qed.

Lemma op_sub_assign_throw a b :
  op_lt a b = true ->
  op_sub_assign a b = (a, Throw (underflow_error "Result would be negative")).
Proof. intros H. unfold op_sub_assign. rewrite H. reflexivity. Qed.

Lemma op_sub_assign_ok a b :
  canonical a -> canonical b -> Z_of b <= Z_of a ->
  exists c, op_sub_assign a b = (c, Ok tt) /\ canonical c /\ Z_of c = Z_of a - Z_of b.
Proof.
  intros Ha Hb Hle. unfold op_sub_assign.
  rewrite op_lt_value by assumption.
  destruct (Z.ltb_spec (Z_of a) (Z_of b)); [lia|].
  apply canonical_canon in Ha, Hb.
  assert (Hlen : (List.length (digits b) <= List.length (digits a))%nat).
  { destruct (Nat.le_gt_cases (List.length (digits b)) (List.length (digits a))); auto.
    pose proof (canon_length_lt _ _ Ha Hb ltac:(lia)). unfold Z_of in *. lia. }
  destruct (sub_loop_spec (digits a) (digits b) 0%nat 0)
    as (bout & Hbo & Hl & Hdig & Hv);
    try (cbn [skipn]; first [apply Ha | apply Hb | lia]).
  cbn [skipn] in Hv.
  eexists. split; [reflexivity|].
  set (out := sub_loop (digits b) 0 (digits a) 0) in *.
  assert (Hne : out <> []).
  { destruct Ha as [Hne _]. destruct out; [|discriminate].
    destruct (digits a); [congruence|discriminate]. }
  split.
  - apply canonical_canon. apply rlz_canon; auto.
  - rewrite rlz_value, Hv. unfold Z_of in *.
    pose proof (value_bound _ Hdig) as B. rewrite Hl, Hv in B.
    pose proof (value_bound _ (proj1 (proj2 Ha))) as Ba.
    pose proof (value_nonneg _ (proj1 (proj2 Hb))) as Bb.
    destruct Hbo as [-> | ->]; lia.
Qed.

End Additive.

(* ================================================================== *)
(** * Multiplication                                                    *)
(* ================================================================== *)

Section Multiplication.

Lemma mul_body_app di oj i j lo x y hi :
  List.length lo = (i + j)%nat ->
  mul_body di oj i j (lo ++ x :: y :: hi)
  = lo ++ Z.rem (x + di * oj) 10 :: (y + Z.quot (x + di * oj) 10) :: hi.
Proof.
  intros Hlen. unfold mul_body. rewrite <- Hlen.
  rewrite upd_length_app, nth_length_app.
  replace (List.length lo + 1)%nat with (List.length (lo ++ [x + di * oj]))
    by (rewrite length_app; reflexivity).
  change (lo ++ x + di * oj :: y :: hi) with (lo ++ [x + di * oj] ++ y :: hi).
  rewrite app_assoc, upd_length_app, <- app_assoc. cbn [app].
  rewrite upd_length_app. reflexivity.
Qed.

Lemma mul_inner_cons di i j o os result :
  mul_inner di i j (o :: os) result = mul_inner di i (S j) os (mul_body di o i j result).
Proof. reflexivity. Qed.

(** One row: the window [x :: mid] of the buffer at [i + j] takes the
    product of the digit [di] and the rest [o :: os] of [other], and grows
    by the position above it, which held zero. *)
Lemma mul_inner_spec di i os : forall o j lo x mid hi,
  is_digit di -> Forall is_digit (o :: os) ->
  List.length lo = (i + j)%nat -> List.length mid = List.length os ->
  0 <= x <= 18 -> Forall is_digit mid ->
  exists out,
    mul_inner di i j (o :: os) (lo ++ x :: mid ++ 0 :: hi) = lo ++ out ++ hi
    /\ List.length out = S (S (List.length os))
    /\ Forall is_digit out
    /\ value out = value (x :: mid) + di * value (o :: os).
Proof.
  induction os as [|o2 os IH]; intros o j lo x mid hi Hdi Hos Hlo Hmid Hx Hm.
  - destruct mid; [|discriminate]. cbn [mul_inner app].
    rewrite mul_body_app by exact Hlo.
    inversion Hos as [|? ? Ho _]; subst. unfold is_digit in *.
    assert (Hp : 0 <= di * o <= 81) by nia.
    rewrite Z.rem_mod_nonneg, Z.quot_div_nonneg by lia.
    pose proof (Z.mod_pos_bound (x + di * o) 10 ltac:(lia)).
    pose proof (Z.div_mod (x + di * o) 10 ltac:(lia)).
    exists [(x + di * o) mod 10; 0 + (x + di * o) / 10].
    repeat split; auto.
    + repeat constructor; lia.
    + cbn [value]. lia.
  - destruct mid as [|y mid]; [discriminate|].
    rewrite mul_inner_cons. cbn [app]. rewrite mul_body_app by exact Hlo.
    inversion Hos as [|? ? Ho Hos']; subst.
    inversion Hm as [|? ? Hy Hm']; subst. unfold is_digit in Hdi, Ho, Hy.
    assert (Hp : 0 <= di * o <= 81) by nia.
    rewrite Z.rem_mod_nonneg, Z.quot_div_nonneg by lia.
    pose proof (Z.mod_pos_bound (x + di * o) 10 ltac:(lia)).
    pose proof (Z.div_mod (x + di * o) 10 ltac:(lia)).
    set (r := (x + di * o) mod 10) in *. set (q := (x + di * o) / 10) in *.
    change (lo ++ r :: y + q :: mid ++ 0 :: hi)
      with (lo ++ [r] ++ (y + q) :: mid ++ 0 :: hi).
    rewrite app_assoc.
    destruct (IH o2 (S j) (lo ++ [r]) (y + q) mid hi) as (out & E & Hlen & Hd & Hv); auto.
    + rewrite length_app. cbn [List.length]. lia.
    + lia.
    + exists (r :: out). rewrite E, <- app_assoc. cbn [app List.length].
      repeat split; auto.
      * constructor; [unfold is_digit; lia|exact Hd].
      * cbn [value] in *. lia.
Qed.

(** All rows: the buffer is [lo], then the window [w] of the size of
    [other], then one zero for each digit [ds] still to be multiplied. *)
Lemma mul_outer_spec o os ds : forall lo w,
  Forall is_digit (o :: os) -> Forall is_digit ds ->
  List.length w = S (List.length os) -> Forall is_digit w ->
  exists res,
    mul_outer (o :: os) (List.length lo) ds (lo ++ w ++ repeat 0 (List.length ds))
      = lo ++ res
    /\ List.length res = (S (List.length os) + List.length ds)%nat
    /\ Forall is_digit res
    /\ value res = value w + value ds * value (o :: os).
Proof.
  induction ds as [|d ds IH]; intros lo w Hos Hds Hw Hwd.
  - exists w. cbn [mul_outer List.length repeat value]. rewrite List.app_nil_r.
    repeat split; auto; lia.
  - destruct w as [|x mid]; [discriminate|].
    inversion Hds as [|? ? Hd Hds']; subst.
    inversion Hwd as [|? ? Hx Hmid]; subst.
    cbn [mul_outer List.length repeat].
    replace (lo ++ (x :: mid) ++ 0 :: repeat 0 (List.length ds))
      with (lo ++ x :: mid ++ 0 :: repeat 0 (List.length ds)) by reflexivity.
    destruct (mul_inner_spec d (List.length lo) os o 0%nat lo x mid
                (repeat 0 (List.length ds)))
      as (out & E & Hlen & Hout & Hv); auto;
      try (cbn in Hw; lia); try (unfold is_digit in Hx; lia).
    rewrite E. destruct out as [|o0 w']; [discriminate|].
    inversion Hout as [|? ? Ho0 Hw']; subst.
    change (lo ++ (o0 :: w') ++ repeat 0 (List.length ds))
      with (lo ++ [o0] ++ w' ++ repeat 0 (List.length ds)).
    rewrite app_assoc.
    replace (S (List.length lo)) with (List.length (lo ++ [o0]))
      by (rewrite length_app; cbn; lia).
    destruct (IH (lo ++ [o0]) w') as (res & E' & Hlen' & Hres & Hv'); auto;
      try (cbn in Hlen; lia).
    exists (o0 :: res). rewrite E', <- app_assoc. cbn [app List.length].
    repeat split; auto; [lia|].
    cbn [value] in *. lia.
Qed.

Lemma repeat_zero_digits n : Forall is_digit (repeat 0 n).
Proof. induction n; cbn; constructor; auto. unfold is_digit; lia. Qed.

Lemma repeat_zero_value n : value (repeat 0 n) = 0.
Proof. induction n; cbn [repeat value]; lia. Qed.

Lemma map_char_digits l : Forall is_digit l -> map char_of_int l = l.
Proof.
  induction 1 as [|d l Hd _ IH]; cbn [map]; [reflexivity|].
  rewrite IH, char_of_int_digit by exact Hd. reflexivity.
Qed.

Lemma op_mul_assign_spec a b :
  canonical a -> canonical b ->
  canonical (op_mul_assign a b) /\ Z_of (op_mul_assign a b) = Z_of a * Z_of b.
Proof.
  intros Ha Hb. unfold op_mul_assign.
  rewrite !is_zero_value by assumption.
  destruct (Z.eqb_spec (Z_of a) 0) as [Za|Za]; cbn [orb].
  { rewrite Za. split; [apply BigInt_ull_canonical|rewrite BigInt_ull_value];
      unfold in_ull, ULLONG_MAX; lia. }
  destruct (Z.eqb_spec (Z_of b) 0) as [Zb|Zb].
  { rewrite Zb. split; [apply BigInt_ull_canonical|rewrite BigInt_ull_value];
      unfold in_ull, ULLONG_MAX; lia. }
  apply canonical_canon in Ha, Hb.
  destruct Ha as (Hna & Hda & _), Hb as (Hnb & Hdb & _).
  unfold length, Z_of in *.
  destruct (digits b) as [|o os] eqn:Eb; [congruence|].
  rewrite Nat.add_comm, repeat_app.
  destruct (mul_outer_spec o os (digits a) [] (repeat 0 (List.length (o :: os))))
    as (res & E & Hlen & Hres & Hv); auto.
  - apply repeat_length.
  - apply repeat_zero_digits.
  - cbn [app List.length] in E. cbn [List.length]. rewrite E.
    rewrite map_char_digits by exact Hres.
    assert (Hne : res <> []) by (destruct res; [discriminate|discriminate]).
    split.
    + apply canonical_canon. apply rlz_canon; auto.
    + pose proof (rlz_value res) as R. unfold Z_of in R.
      rewrite R, Hv, repeat_zero_value. lia.
Qed.

End Multiplication.

(* ================================================================== *)
(** * Division and modulo                                               *)
(* ================================================================== *)

Section Division.

Variable divisor : BigInt.
Hypothesis divisor_canonical : canonical divisor.
Hypothesis divisor_positive : 0 < Z_of divisor.

(** The inner loop subtracts the divisor as often as it fits. *)
Lemma div_while_spec fuel : forall cd count,
  canonical cd -> Z_of cd / Z_of divisor < Z.of_nat fuel ->
  exists cd',
    div_while fuel divisor cd count = Ok (cd', count + Z_of cd / Z_of divisor)
    /\ canonical cd' /\ Z_of cd' = Z_of cd mod Z_of divisor.
Proof.
  induction fuel as [|fuel IH]; intros cd count Hcd Hfuel.
  - pose proof (canonical_nonneg cd Hcd).
    pose proof (Z.div_pos (Z_of cd) (Z_of divisor) ltac:(lia) ltac:(lia)). lia.
  - cbn [div_while]. rewrite op_ge_value by assumption.
    destruct (Z.leb_spec (Z_of divisor) (Z_of cd)) as [Hle|Hlt].
    + destruct (op_sub_assign_ok cd divisor Hcd divisor_canonical Hle)
        as (c & E & Hc & Vc).
      rewrite E. cbn [bind].
      assert (Hdiv : Z_of c / Z_of divisor = Z_of cd / Z_of divisor - 1).
      { rewrite Vc. replace (Z_of cd - Z_of divisor)
          with (Z_of cd + (-1) * Z_of divisor) by ring.
        rewrite Z.div_add by lia. ring. }
      assert (Hmod : Z_of c mod Z_of divisor = Z_of cd mod Z_of divisor).
      { rewrite Vc. replace (Z_of cd - Z_of divisor)
          with (Z_of cd + (-1) * Z_of divisor) by ring.
        apply Z.mod_add. lia. }
      destruct (IH c (count + 1) Hc ltac:(lia)) as (cd' & E' & Hcd' & Vcd').
      exists cd'. rewrite E', Hdiv. repeat split; auto; [f_equal; f_equal; lia|lia].
    + pose proof (canonical_nonneg cd Hcd).
      exists cd. rewrite Z.div_small, Z.mod_small by lia.
      rewrite Z.add_0_r. auto.
Qed.

(** The digits of the quotient are pushed most significant first. *)
Lemma div_loop_spec fuel ds : forall quotient cd,
  (10 <= fuel)%nat -> Forall is_digit ds ->
  canonical cd -> Z_of cd < Z_of divisor ->
  Forall is_digit (digits quotient) -> digits quotient <> [] ->
  exists q,
    div_loop fuel divisor ds quotient cd = Ok q
    /\ Forall is_digit (digits q) /\ digits q <> []
    /\ value (rev (digits q))
       = value (rev (digits quotient)) * 10 ^ Z.of_nat (List.length ds)
         + (Z_of cd * 10 ^ Z.of_nat (List.length ds) + value (rev ds)) / Z_of divisor.
Proof.
  induction ds as [|d ds IH]; intros quotient cd Hfuel Hds Hcd Hlt Hq Hqne.
  - exists quotient. cbn [div_loop List.length rev value].
    pose proof (canonical_nonneg cd Hcd).
    rewrite Z.pow_0_r, Z.div_small by lia. repeat split; auto. lia.
  - cbn [div_loop].
    inversion Hds as [|? ? Hd Hds']; subst.
    pose proof (canonical_nonneg cd Hcd) as Hcd0.
    assert (Hcdd : Forall is_digit (d :: digits cd)).
    { constructor; [exact Hd|]. apply canonical_canon in Hcd. apply Hcd. }
    set (cd1 := remove_leading_zeros (mkBigInt (d :: digits cd))).
    assert (C1 : canonical cd1).
    { apply canonical_canon. apply rlz_canon; [discriminate|exact Hcdd]. }
    assert (V1 : Z_of cd1 = d + 10 * Z_of cd).
    { unfold cd1. rewrite rlz_value. reflexivity. }
    unfold is_digit in Hd.
    assert (Hcount : 0 <= Z_of cd1 / Z_of divisor < 10).
    { split; [apply Z.div_pos; lia|]. apply Z.div_lt_upper_bound; lia. }
    destruct (div_while_spec fuel cd1 0 C1 ltac:(lia)) as (cd2 & E & C2 & V2).
    rewrite E. cbn [bind Z.add].
    set (count := Z_of cd1 / Z_of divisor) in *.
    rewrite char_of_int_digit by (unfold is_digit; lia).
    pose proof (Z.mod_pos_bound (Z_of cd1) (Z_of divisor) divisor_positive) as Hm.
    destruct (IH (mkBigInt (digits quotient ++ [count])) cd2) as (q & Eq & Hqd & Hqn & Vq);
      auto; try lia.
    + cbn [digits]. apply Forall_app. split; [exact Hq|].
      repeat constructor; unfold is_digit; lia.
    + cbn [digits]. destruct (digits quotient); discriminate.
    + exists q. rewrite Eq. repeat split; auto.
      rewrite Vq. cbn [digits List.length rev].
      rewrite rev_app_distr. cbn [rev app value].
      rewrite value_app, length_rev. cbn [value].
      rewrite pow10_succ.
      set (P := 10 ^ Z.of_nat (List.length ds)).
      set (R := value (rev ds)).
      pose proof (Z.div_mod (Z_of cd1) (Z_of divisor) ltac:(lia)) as Hdm.
      fold count in Hdm.
      replace (Z_of cd * (10 * P) + (R + P * (d + 10 * 0)))
        with (count * P * Z_of divisor + (Z_of cd2 * P + R)) by (rewrite V2; nia).
      rewrite Z.div_add_l by lia. ring.
Qed.

End Division.

Section DivisionOperators.

Lemma zero_canonical : canonical (BigInt_ull 0).
Proof. reflexivity. Qed.

Lemma one_canonical : canonical (BigInt_ull 1).
Proof. reflexivity. Qed.

Lemma op_div_assign_spec fuel a b :
  (10 <= fuel)%nat -> canonical a -> canonical b -> Z_of b <> 0 ->
  exists q, op_div_assign fuel a b = (q, Ok tt)
            /\ canonical q /\ Z_of q = Z_of a / Z_of b.
Proof.
  intros Hfuel Ha Hb Hnz.
  pose proof (canonical_nonneg a Ha) as Ha0.
  pose proof (canonical_nonneg b Hb) as Hb0.
  unfold op_div_assign.
  rewrite is_zero_value, op_lt_value, op_eq_value by assumption.
  destruct (Z.eqb_spec (Z_of b) 0); [contradiction|].
  destruct (Z.ltb_spec (Z_of a) (Z_of b)).
  { exists (BigInt_ull 0). rewrite Z.div_small by lia.
    repeat split; auto using zero_canonical. }
  destruct (Z.eqb_spec (Z_of a) (Z_of b)) as [E|E].
  { exists (BigInt_ull 1). rewrite E, Z.div_same by lia.
    repeat split; auto using one_canonical. }
  destruct (div_loop_spec b Hb ltac:(lia) fuel (rev (digits a)) (BigInt_ull 0) (BigInt_ull 0))
    as (q & Eq & Hqd & Hqn & Vq); auto using zero_canonical;
    try (apply Forall_rev; apply canonical_canon in Ha; apply Ha);
    try (change (Z_of (BigInt_ull 0)) with 0; lia);
    try (cbn; repeat constructor; unfold is_digit; lia);
    try discriminate.
  rewrite Eq. eexists. split; [reflexivity|].
  assert (Hr : rev (digits q) <> []).
  { intros R. apply (f_equal (@rev Z)) in R. rewrite rev_involutive in R. auto. }
  split.
  - apply canonical_canon. apply rlz_canon; [exact Hr|]. apply Forall_rev, Hqd.
  - rewrite rlz_value, Vq, rev_involutive.
    change (Z_of (BigInt_ull 0)) with 0.
    change (value (rev (digits (BigInt_ull 0)))) with 0.
    rewrite !Z.mul_0_l, !Z.add_0_l. reflexivity.
Qed.

Lemma op_add_spec a b :
  canonical a -> canonical b ->
  canonical (op_add a b) /\ Z_of (op_add a b) = Z_of a + Z_of b.
Proof. apply op_add_assign_spec. Qed.

Lemma op_mul_spec a b :
  canonical a -> canonical b ->
  canonical (op_mul a b) /\ Z_of (op_mul a b) = Z_of a * Z_of b.
Proof. apply op_mul_assign_spec. Qed.

Lemma op_sub_ok a b :
  canonical a -> canonical b -> Z_of b <= Z_of a ->
  exists c, op_sub a b = Ok c /\ canonical c /\ Z_of c = Z_of a - Z_of b.
Proof.
  intros Ha Hb Hle. destruct (op_sub_assign_ok a b Ha Hb Hle) as (c & E & Hc & Vc).
  exists c. unfold op_sub. rewrite E. auto.
Qed.

Lemma op_div_ok fuel a b :
  (10 <= fuel)%nat -> canonical a -> canonical b -> Z_of b <> 0 ->
  exists q, op_div fuel a b = Ok q /\ canonical q /\ Z_of q = Z_of a / Z_of b.
Proof.
  intros Hf Ha Hb Hnz.
  destruct (op_div_assign_spec fuel a b Hf Ha Hb Hnz) as (q & E & Hq & Vq).
  exists q. unfold op_div. rewrite E. auto.
Qed.

Lemma op_mod_ok fuel a b :
  (10 <= fuel)%nat -> canonical a -> canonical b -> Z_of b <> 0 ->
  exists r, op_mod fuel a b = Ok r /\ canonical r /\ Z_of r = Z_of a mod Z_of b.
Proof.
  intros Hf Ha Hb Hnz. unfold op_mod.
  rewrite is_zero_value by assumption.
  destruct (Z.eqb_spec (Z_of b) 0); [contradiction|].
  destruct (op_div_ok fuel a b Hf Ha Hb Hnz) as (q & E & Hq & Vq).
  rewrite E. cbn [bind].
  destruct (op_mul_spec q b Hq Hb) as [Hm Vm].
  pose proof (canonical_nonneg a Ha) as Ha0.
  pose proof (canonical_nonneg b Hb) as Hb0.
  pose proof (Z.div_mod (Z_of a) (Z_of b) Hnz) as Hdm.
  pose proof (Z.mod_pos_bound (Z_of a) (Z_of b) ltac:(lia)) as Hmb.
  destruct (op_sub_assign_ok a (op_mul q b) Ha Hm) as (r & Er & Hr & Vr).
  - rewrite Vm, Vq. nia.
  - exists r. rewrite Er. cbn [bind]. repeat split; auto. rewrite Vr, Vm, Vq. nia.
Qed.

End DivisionOperators.

(* ================================================================== *)
(** * Power and square root                                             *)
(* ================================================================== *)

Section Power.

Lemma in_ull_small n : 0 <= n <= 9 -> in_ull n.
Proof. unfold in_ull, ULLONG_MAX. lia. Qed.

Lemma pre_increment_spec c :
  canonical c -> canonical (pre_increment c) /\ Z_of (pre_increment c) = Z_of c + 1.
Proof.
  intros Hc. unfold pre_increment.
  destruct (op_add_assign_spec c (BigInt_ull 1) Hc one_canonical) as [H V].
  split; [exact H|]. rewrite V. reflexivity.
Qed.

Lemma iter_mul_spec base k r :
  canonical base -> canonical r ->
  canonical (Nat.iter k (fun result => op_mul_assign result base) r)
  /\ Z_of (Nat.iter k (fun result => op_mul_assign result base) r)
     = Z_of r * Z_of base ^ Z.of_nat k.
Proof.
  intros Hb Hr. induction k as [|k [IHc IHv]].
  - change (Nat.iter 0 (fun result => op_mul_assign result base) r) with r.
    rewrite Z.pow_0_r. split; [exact Hr|lia].
  - rewrite Nat.iter_succ.
    destruct (op_mul_assign_spec _ base IHc Hb) as [Hc Hv].
    split; [exact Hc|]. rewrite Hv, IHv, Nat2Z.inj_succ, Z.pow_succ_r by lia. ring.
Qed.

Lemma iter_shift {A : Type} (f : A -> A) k x : Nat.iter (S k) f x = Nat.iter k f (f x).
Proof. apply Nat.iter_succ_r. Qed.

Lemma pow_loop_spec fuel : forall base exponent result counter,
  canonical base -> canonical exponent -> canonical result -> canonical counter ->
  Z_of counter <= Z_of exponent ->
  Z_of exponent - Z_of counter < Z.of_nat fuel ->
  pow_loop fuel base exponent result counter
  = Ok (Nat.iter (Z.to_nat (Z_of exponent - Z_of counter))
          (fun result => op_mul_assign result base) result).
Proof.
  induction fuel as [|fuel IH]; intros base exponent result counter Hb He Hr Hc Hle Hf.
  - lia.
  - cbn [pow_loop]. rewrite op_lt_value by assumption.
    destruct (Z.ltb_spec (Z_of counter) (Z_of exponent)) as [Hlt|Hge].
    + destruct (pre_increment_spec counter Hc) as [Hc' Vc'].
      destruct (op_mul_assign_spec result base Hr Hb) as [Hr' _].
      rewrite IH by (auto; lia).
      f_equal. rewrite Vc'.
      replace (Z.to_nat (Z_of exponent - Z_of counter))
        with (S (Z.to_nat (Z_of exponent - (Z_of counter + 1)))) by lia.
      symmetry.
      exact (iter_shift (fun r => op_mul_assign r base) _ result).
    + replace (Z_of exponent - Z_of counter) with 0 by lia. reflexivity.
Qed.

Lemma pow_spec fuel base exponent :
  canonical base -> canonical exponent -> Z_of exponent < Z.of_nat fuel ->
  pow fuel base exponent = Ok (k_fold_product base (Z.to_nat (Z_of exponent))).
Proof.
  intros Hb He Hf. unfold pow, k_fold_product.
  rewrite is_zero_value by assumption.
  destruct (Z.eqb_spec (Z_of exponent) 0) as [E|E].
  - rewrite E. reflexivity.
  - rewrite pow_loop_spec; auto using one_canonical, zero_canonical.
    + change (Z_of (BigInt_ull 0)) with 0. rewrite Z.sub_0_r. reflexivity.
    + change (Z_of (BigInt_ull 0)) with 0. apply canonical_nonneg. exact He.
    + change (Z_of (BigInt_ull 0)) with 0. lia.
Qed.

Lemma k_fold_product_spec base k :
  canonical base ->
  canonical (k_fold_product base k)
  /\ Z_of (k_fold_product base k) = Z_of base ^ Z.of_nat k.
Proof.
  intros Hb. unfold k_fold_product.
  destruct (iter_mul_spec base k (BigInt_ull 1) Hb one_canonical) as [Hc Hv].
  split; [exact Hc|]. rewrite Hv. change (Z_of (BigInt_ull 1)) with 1. lia.
Qed.

End Power.

Section SquareRoot.

Variable this : BigInt.
Hypothesis this_canonical : canonical this.

Lemma two_canonical : canonical (BigInt_ull 2).
Proof. reflexivity. Qed.

(** The bisection keeps [result = low - 1], [result^2 <= this] and
    [this < (high + 1)^2]; the distance of the bounds bounds the fuel. *)
Lemma sqrt_loop_spec fuel : forall low high result,
  canonical low -> canonical high -> canonical result ->
  1 <= Z_of low -> Z_of low <= Z_of high + 1 ->
  Z_of result = Z_of low - 1 ->
  Z_of result * Z_of result <= Z_of this ->
  Z_of this < (Z_of high + 1) * (Z_of high + 1) ->
  Z_of high - Z_of low + 12 <= Z.of_nat fuel ->
  exists r,
    sqrt_loop fuel this low high result = Ok r /\ canonical r
    /\ Z_of r * Z_of r <= Z_of this < (Z_of r + 1) * (Z_of r + 1).
Proof.
  induction fuel as [|fuel IH];
    intros low high result Hl Hh Hr Hl1 Hlh Hres Hlo Hhi Hf; [lia|].
  cbn [sqrt_loop]. rewrite op_le_value by assumption.
  destruct (Z.leb_spec (Z_of low) (Z_of high)) as [Hle|Hgt].
  - destruct (op_add_spec low high Hl Hh) as [Hs Vs].
    destruct (op_div_ok fuel (op_add low high) (BigInt_ull 2) ltac:(lia) Hs two_canonical)
      as (mid & Em & Hm & Vm); [discriminate|].
    rewrite Em. cbn [bind]. change (Z_of (BigInt_ull 2)) with 2 in Vm. rewrite Vs in Vm.
    assert (Hmid : Z_of low <= Z_of mid <= Z_of high).
    { rewrite Vm. split; [apply Z.div_le_lower_bound|apply Z.div_le_upper_bound]; lia. }
    destruct (op_mul_spec mid mid Hm Hm) as [Hsq Vsq].
    rewrite op_eq_value, op_lt_value by assumption. rewrite Vsq.
    destruct (Z.eqb_spec (Z_of mid * Z_of mid) (Z_of this)) as [Eq|Ne].
    { exists mid. repeat split; auto; nia. }
    destruct (Z.ltb_spec (Z_of mid * Z_of mid) (Z_of this)) as [Lt|Ge].
    + destruct (op_add_spec mid (BigInt_ull 1) Hm one_canonical) as [Hn Vn].
      change (Z_of (BigInt_ull 1)) with 1 in Vn.
      apply IH; auto; rewrite ?Vn; lia.
    + destruct (op_sub_ok mid (BigInt_ull 1) Hm one_canonical) as (h & Eh & Hhc & Vh).
      { change (Z_of (BigInt_ull 1)) with 1. lia. }
      change (Z_of (BigInt_ull 1)) with 1 in Vh.
      rewrite Eh. cbn [bind].
      apply IH; auto; rewrite ?Vh; try lia.
  - exists result. repeat split; auto.
    assert (Z_of result <= Z_of high) by nia.
    assert (Z_of result = Z_of high) by lia. nia.
Qed.

Lemma sqrt_spec fuel :
  Z_of this + 12 <= Z.of_nat fuel ->
  exists r,
    sqrt fuel this = Ok r /\ canonical r
    /\ Z_of r * Z_of r <= Z_of this < (Z_of r + 1) * (Z_of r + 1).
Proof.
  intros Hf. unfold sqrt.
  pose proof (canonical_nonneg this this_canonical) as H0.
  rewrite op_lt_value, is_zero_value, op_eq_value by auto using zero_canonical, one_canonical.
  change (Z_of (BigInt_ull 0)) with 0. change (Z_of (BigInt_ull 1)) with 1.
  destruct (Z.ltb_spec (Z_of this) 0); [lia|].
  destruct (Z.eqb_spec (Z_of this) 0) as [E0|N0]; cbn [orb].
  { exists this. rewrite E0. repeat split; auto; lia. }
  destruct (Z.eqb_spec (Z_of this) 1) as [E1|N1].
  { exists this. rewrite E1. repeat split; auto; lia. }
  apply sqrt_loop_spec; auto using zero_canonical, one_canonical;
    change (Z_of (BigInt_ull 0)) with 0; change (Z_of (BigInt_ull 1)) with 1;
    try lia; nia.
Qed.

End SquareRoot.

(* ================================================================== *)
(** * Factorial, Fibonacci and Catalan numbers                          *)
(* ================================================================== *)

Section Special.

Lemma int_wrap_small x : in_int x -> int_wrap x = x.
Proof.
  unfold in_int, INT_MIN, INT_MAX, int_wrap. intros H. rewrite Z.mod_small; lia.
Qed.

Lemma int_wrap_range x : in_int (int_wrap x).
Proof.
  unfold in_int, INT_MIN, INT_MAX, int_wrap.
  pose proof (Z.mod_pos_bound (x + 2147483648) 4294967296 ltac:(lia)). lia.
Qed.

Lemma ull_of_int_small x : 0 <= x <= INT_MAX -> ull_of_int x = x.
Proof.
  unfold INT_MAX, ull_of_int. intros H. rewrite Z.mod_small; lia.
Qed.

Lemma product_1_to_step i : 1 <= i -> product_1_to i = product_1_to (i - 1) * i.
Proof.
  intros Hi. unfold product_1_to.
  replace (Z.to_nat i) with (S (Z.to_nat (i - 1))) by lia.
  rewrite seq_S, map_app, fold_left_app. cbn [map fold_left]. f_equal. lia.
Qed.

Lemma product_1_to_small n : n <= 1 -> product_1_to n = 1.
Proof.
  intros Hn. unfold product_1_to.
  destruct (Z.to_nat n) as [|[|k]] eqn:E; [reflexivity|reflexivity|lia].
Qed.

Lemma product_1_to_pos n : 0 < product_1_to n.
Proof.
  destruct (Z.le_gt_cases n 0) as [Hn|Hn].
  - rewrite product_1_to_small by lia. lia.
  - pattern n. apply (Zlt_lower_bound_ind _ 1); [|lia].
    intros x IH Hx. destruct (Z.eq_dec x 1) as [->|Hx1].
    + rewrite product_1_to_small by lia. lia.
    + rewrite product_1_to_step by lia. specialize (IH (x - 1) ltac:(lia)). nia.
Qed.

Lemma factorial_loop_spec fuel : forall n i result,
  canonical result -> n < INT_MAX -> 2 <= i <= n + 1 ->
  Z_of result = product_1_to (i - 1) ->
  n + 1 - i < Z.of_nat fuel ->
  exists r, factorial_loop fuel n i result = Ok r
            /\ canonical r /\ Z_of r = product_1_to n.
Proof.
  induction fuel as [|fuel IH]; intros n i result Hr Hn Hi Hv Hf; [lia|].
  cbn [factorial_loop].
  destruct (Z.leb_spec i n) as [Hle|Hgt].
  - rewrite int_wrap_small by (unfold in_int, INT_MIN, INT_MAX in *; lia).
    rewrite ull_of_int_small by (unfold INT_MAX in *; lia).
    assert (Hu : in_ull i) by (unfold in_ull, ULLONG_MAX, INT_MAX in *; lia).
    destruct (BigInt_ull_spec i Hu) as [Hic Hiv].
    destruct (op_mul_assign_spec result (BigInt_ull i) Hr Hic) as [Hm Vm].
    apply IH; auto; try lia.
    rewrite Vm, Hv, Hiv. replace (i + 1 - 1) with i by lia.
    symmetry. apply product_1_to_step. lia.
  - exists result. repeat split; auto. rewrite Hv. f_equal. lia.
Qed.

Lemma factorial_ok fuel n :
  0 <= n < INT_MAX -> n < Z.of_nat fuel ->
  exists r, factorial fuel n = Ok r /\ canonical r /\ Z_of r = product_1_to n.
Proof.
  intros Hn Hf. unfold factorial.
  destruct (Z.ltb_spec n 0); [lia|].
  destruct (Z.eq_dec n 0) as [->|Hn0].
  - destruct fuel; [lia|]. exists (BigInt_ull 1). cbn [factorial_loop Z.leb Z.compare].
    repeat split.
  - apply factorial_loop_spec; auto using one_canonical; try lia.
Qed.

Lemma factorial_negative fuel n :
  n < 0 -> factorial fuel n = Throw (invalid_argument "Negative factorial").
Proof.
  intros Hn. unfold factorial. destruct (Z.ltb_spec n 0); [reflexivity|lia].
Qed.

Lemma catalan_negative fuel n :
  n < 0 -> catalan fuel n = Throw (invalid_argument "Negative Catalan number").
Proof.
  intros Hn. unfold catalan. destruct (Z.ltb_spec n 0); [reflexivity|lia].
Qed.

(** At [INT_MAX] the counter wraps before it can exceed [n]: the loop has no
    exit. *)
Lemma factorial_loop_INT_MAX fuel : forall i result,
  in_int i -> factorial_loop fuel INT_MAX i result = OutOfFuel.
Proof.
  induction fuel as [|fuel IH]; intros i result Hi; [reflexivity|].
  cbn [factorial_loop].
  destruct (Z.leb_spec i INT_MAX) as [_|Hgt]; [|unfold in_int in Hi; lia].
  apply IH. apply int_wrap_range.
Qed.

Lemma factorial_INT_MAX fuel : factorial fuel INT_MAX = OutOfFuel.
Proof.
  unfold factorial. change (INT_MAX <? 0) with false. cbv iota.
  apply factorial_loop_INT_MAX. unfold in_int, INT_MIN, INT_MAX. lia.
Qed.

Lemma catalan_ok fuel n :
  0 <= n -> 2 * n <= INT_MAX -> 2 * n + 10 <= Z.of_nat fuel ->
  exists num f1 f0 r,
    factorial fuel (2 * n) = Ok num /\ factorial fuel (n + 1) = Ok f1
    /\ factorial fuel n = Ok f0
    /\ op_div fuel num (op_mul f1 f0) = Ok r
    /\ catalan fuel n = Ok r /\ canonical r
    /\ Z_of r = product_1_to (2 * n) / (product_1_to (n + 1) * product_1_to n).
Proof.
  intros Hn Hmax Hf. unfold catalan.
  destruct (Z.ltb_spec n 0); [lia|].
  assert (Hint : INT_MAX = 2147483647) by reflexivity.
  rewrite !int_wrap_small by (unfold in_int, INT_MIN; lia).
  destruct (factorial_ok fuel (2 * n) ltac:(lia) ltac:(lia)) as (num & En & Hnum & Vnum).
  destruct (factorial_ok fuel (n + 1) ltac:(lia) ltac:(lia)) as (f1 & E1 & Hf1 & V1).
  destruct (factorial_ok fuel n ltac:(lia) ltac:(lia)) as (f0 & E0 & Hf0 & V0).
  rewrite En, E1, E0. cbn [bind].
  destruct (op_mul_spec f1 f0 Hf1 Hf0) as [Hden Vden].
  pose proof (product_1_to_pos (n + 1)). pose proof (product_1_to_pos n).
  destruct (op_div_ok fuel num (op_mul f1 f0) ltac:(lia) Hnum Hden) as (q & Eq & Hq & Vq).
  - rewrite Vden, V1, V0. nia.
  - exists num, f1, f0, q. rewrite Eq. repeat split; auto.
    rewrite Vq, Vnum, Vden, V1, V0. reflexivity.
Qed.

Lemma fibonacci_negative fuel n :
  n < 0 -> (0 < fuel)%nat -> fibonacci fuel n = Ok (BigInt_ull 1).
Proof.
  intros Hn Hf. unfold fibonacci.
  destruct (Z.eqb_spec n 0); [lia|].
  destruct fuel; [lia|]. cbn [fibonacci_loop].
  destruct (Z.leb_spec 2 n); [lia|reflexivity].
Qed.

End Special.

(* ================================================================== *)
(** * Text: parsing and rendering                                       *)
(* ================================================================== *)

Section Text.

Lemma int_of_char_range c : (0 <= int_of_char c < 256)%Z.
Proof.
  unfold int_of_char. pose proof (N_ascii_bounded c). lia.
Qed.

Lemma digit_of_char_digit c : is_digit_char c -> is_digit (digit_of_char c).
Proof.
  unfold is_digit_char, isdigit, digit_of_char, is_digit.
  rewrite andb_true_iff, !Z.leb_le. lia.
Qed.

Lemma char_of_digit_of_char c : is_digit_char c -> char_of_digit (digit_of_char c) = c.
Proof.
  intros H. pose proof (digit_of_char_digit c H) as Hd.
  unfold char_of_digit, digit_of_char, int_of_char in *.
  replace (48 + (Z.of_N (N_of_ascii c) - 48))%Z with (Z.of_N (N_of_ascii c)) by lia.
  rewrite N2Z.id. apply ascii_N_embedding.
Qed.

Lemma digit_cases d : is_digit d ->
  (d = 0 \/ d = 1 \/ d = 2 \/ d = 3 \/ d = 4 \/ d = 5 \/ d = 6 \/ d = 7 \/ d = 8 \/ d = 9)%Z.
Proof. unfold is_digit. lia. Qed.

Ltac each_digit H :=
  apply digit_cases in H;
  repeat (destruct H as [H|H]; [subst|]); subst.

Lemma print_int_digit d : is_digit d -> print_int d = String (char_of_digit d) EmptyString.
Proof. intros H. each_digit H; reflexivity. Qed.

Lemma concat_cons_char c xs :
  String.concat EmptyString (String c EmptyString :: xs) = String c (String.concat EmptyString xs).
Proof. destruct xs; reflexivity. Qed.

(** The digits printed one after the other, for digits in [0,9]. *)
Lemma render_digits m :
  Forall is_digit m ->
  String.concat EmptyString (map print_int m) = string_of_list_ascii (map char_of_digit m).
Proof.
  induction 1 as [|d m Hd _ IH]; [reflexivity|].
  cbn [map string_of_list_ascii]. rewrite print_int_digit by exact Hd.
  rewrite concat_cons_char, IH. reflexivity.
Qed.

Lemma string_of_uint_digits m :
  Forall is_digit m ->
  DecimalString.NilEmpty.string_of_uint (uint_of_digits m)
  = string_of_list_ascii (map char_of_digit m).
Proof.
  induction 1 as [|d m Hd _ IH]; [reflexivity|].
  cbn [map string_of_list_ascii uint_of_digits]. rewrite <- IH.
  each_digit Hd; reflexivity.
Qed.

Lemma revapp_digits m : forall acc,
  Forall is_digit m ->
  Decimal.revapp (uint_of_digits m) (uint_of_digits acc)
  = uint_of_digits (rev_append m acc).
Proof.
  induction m as [|d m IH]; intros acc H; [reflexivity|].
  inversion H as [|? ? Hd Hm]; subst.
  cbn [rev_append]. rewrite <- (IH (d :: acc) Hm).
  cbn [uint_of_digits]. each_digit Hd; reflexivity.
Qed.

Lemma rev_digits m :
  Forall is_digit m -> Decimal.rev (uint_of_digits m) = uint_of_digits (rev m).
Proof.
  intros H. unfold Decimal.rev.
  change Decimal.Nil with (uint_of_digits []).
  rewrite revapp_digits by exact H. rewrite rev_alt. reflexivity.
Qed.

Lemma of_lu_digits l :
  Forall is_digit l -> Z.of_N (DecimalPos.Unsigned.of_lu (uint_of_digits l)) = value l.
Proof.
  induction 1 as [|d l Hd _ IH]; [reflexivity|].
  cbn [uint_of_digits value]. rewrite <- IH.
  each_digit Hd; cbn [Dcons DecimalPos.Unsigned.of_lu]; lia.
Qed.

Lemma of_uint_digits m :
  Forall is_digit m -> Z.of_uint (uint_of_digits m) = value (rev m).
Proof.
  intros H. unfold Z.of_uint.
  rewrite DecimalPos.Unsigned.of_uint_alt, rev_digits by exact H.
  apply of_lu_digits. apply Forall_rev. exact H.
Qed.

(** The numeral of a canonical string is normalised. *)
Lemma unorm_digits l :
  canon l -> Decimal.unorm (uint_of_digits (rev l)) = uint_of_digits (rev l).
Proof.
  intros (Hne & Hd & Hlast).
  destruct (split_last l Hne) as (l' & x & ->).
  rewrite last_app_single in Hlast.
  apply Forall_app in Hd. destruct Hd as [_ Hx].
  inversion Hx as [|? ? Hx' _]; subst.
  rewrite rev_app_distr. cbn [rev app uint_of_digits].
  destruct (Z.eq_dec x 0) as [->|Hx0].
  - specialize (Hlast Logic.eq_refl). destruct l'; [reflexivity|].
    apply (f_equal (@List.length Z)) in Hlast. rewrite length_app in Hlast.
    cbn in Hlast. lia.
  - each_digit Hx'; try congruence; reflexivity.
Qed.

(** Rendering a canonical value writes the number it denotes. *)
Lemma render_canonical a : canonical a -> render a = decimal_string (Z_of a).
Proof.
  intros Ha. apply canonical_canon in Ha.
  assert (Hd : Forall is_digit (rev (digits a))) by (apply Forall_rev, Ha).
  unfold render, decimal_string, Z_of.
  rewrite render_digits by exact Hd.
  rewrite <- string_of_uint_digits by exact Hd.
  rewrite <- (rev_involutive (digits a)) at 2.
  rewrite <- of_uint_digits by exact Hd.
  change (Z.of_uint (uint_of_digits (rev (digits a))))
    with (Z.of_int (Decimal.Pos (uint_of_digits (rev (digits a))))).
  rewrite DecimalZ.to_of. cbn [Decimal.norm].
  rewrite unorm_digits by exact Ha.
  cbn [DecimalString.NilZero.string_of_int].
  unfold DecimalString.NilZero.string_of_uint.
  destruct Ha as (Hne & _ & _).
  destruct (rev (digits a)) as [|x m] eqn:E.
  - apply (f_equal (@rev Z)) in E. rewrite rev_involutive in E. cbn in E. congruence.
  - inversion Hd as [|? ? Hx _]; subst. cbn [uint_of_digits].
    each_digit Hx; reflexivity.
Qed.

(** ** Parsing *)

Lemma parse_loop_ok cs : forall ds,
  Forall is_digit_char cs -> parse_loop cs ds = Ok (ds ++ map digit_of_char cs).
Proof.
  induction cs as [|c cs IH]; intros ds H.
  - cbn. rewrite List.app_nil_r. reflexivity.
  - inversion H as [|? ? Hc Hcs]; subst. cbn [parse_loop map].
    rewrite Hc. cbn [negb]. rewrite IH by exact Hcs.
    fold (digit_of_char c).
    rewrite char_of_int_digit by (apply digit_of_char_digit, Hc).
    rewrite <- app_assoc. reflexivity.
Qed.

Lemma parse_loop_inv cs : forall ds r,
  parse_loop cs ds = Ok r -> Forall is_digit_char cs.
Proof.
  induction cs as [|c cs IH]; intros ds r H; [constructor|].
  cbn [parse_loop] in H. destruct (isdigit c) eqn:Hc; cbn [negb] in H; [|discriminate].
  constructor; [exact Hc|]. eapply IH. exact H.
Qed.

(** [find_first_not_of('0')] splits the text into its leading zeros and the
    rest, which starts with another character. *)
Lemma find_first_not_of_0_spec s : forall pos,
  match find_first_not_of_0 s pos with
  | None => Forall (fun c => c = "0"%char) s
  | Some k => exists zeros c rest,
      s = zeros ++ c :: rest /\ Forall (fun c => c = "0"%char) zeros
      /\ c <> "0"%char /\ k = (pos + List.length zeros)%nat
  end.
Proof.
  induction s as [|c s IH]; intros pos; cbn [find_first_not_of_0]; [constructor|].
  destruct (Ascii.eqb_spec c "0") as [->|Hc].
  - specialize (IH (S pos)). destruct (find_first_not_of_0 s (S pos)).
    + destruct IH as (zeros & c & rest & -> & Hz & Hc & ->).
      exists ("0"%char :: zeros), c, rest. cbn [app List.length].
      repeat split; auto; lia.
    + constructor; auto.
  - exists [], c, s. cbn [app List.length]. repeat split; auto.
Qed.

(** The string constructor applied to a text without leading zeros. *)
Lemma BigInt_str_no_leading_zero c rest :
  c <> "0"%char ->
  BigInt_str (String c rest)
  = ds <- parse_loop (rev (c :: list_ascii_of_string rest)) [] ;; Ok (mkBigInt ds).
Proof.
  intros Hc. unfold BigInt_str. cbn [list_ascii_of_string find_first_not_of_0].
  destruct (Ascii.eqb_spec c "0"); [contradiction|]. reflexivity.
Qed.

Lemma nonzero_digit_char c :
  is_digit_char c -> c <> "0"%char -> digit_of_char c <> 0%Z.
Proof.
  intros Hd Hc E. apply Hc.
  rewrite <- (char_of_digit_of_char c Hd), E. reflexivity.
Qed.

Lemma parsed_canon c rest :
  Forall is_digit_char (c :: rest) -> c <> "0"%char ->
  canon (map digit_of_char (rev (c :: rest))).
Proof.
  intros H Hc. inversion H as [|? ? Hdc Hrest]; subst.
  cbn [rev]. rewrite map_app. cbn [map].
  repeat split.
  - destruct (map digit_of_char (rev rest)); discriminate.
  - apply Forall_app. split.
    + apply Forall_map. apply Forall_rev.
      eapply Forall_impl; [|exact Hrest]. apply digit_of_char_digit.
    + constructor; [apply digit_of_char_digit, Hdc|constructor].
  - rewrite last_app_single. intros E. exfalso.
    exact (nonzero_digit_char c Hdc Hc E).
Qed.

(** A text of decimal digits that does not start with a zero is parsed to a
    canonical value, and rendered back to itself. *)
Lemma parse_render_no_leading_zero c rest :
  Forall is_digit_char (c :: list_ascii_of_string rest) -> c <> "0"%char ->
  exists a, BigInt_str (String c rest) = Ok a /\ canonical a
            /\ render a = String c rest.
Proof.
  intros H Hc. rewrite BigInt_str_no_leading_zero by exact Hc.
  rewrite parse_loop_ok by (apply Forall_rev, H). cbn [bind app].
  eexists. split; [reflexivity|]. split.
  - apply canonical_canon. apply parsed_canon; assumption.
  - unfold render. cbn [digits]. rewrite <- map_rev, rev_involutive.
    rewrite render_digits
      by (apply Forall_map; eapply Forall_impl; [|exact H]; apply digit_of_char_digit).
    rewrite map_map.
    rewrite (map_ext_Forall _ (fun c => c)).
    + rewrite map_id. cbn [string_of_list_ascii].
      rewrite string_of_list_ascii_of_string. reflexivity.
    + eapply Forall_impl; [|exact H]. apply char_of_digit_of_char.
Qed.

(** What the string constructor can return: a canonical value, or the
    one-character string "0" of the source. *)
Lemma BigInt_str_cases s a :
  BigInt_str s = Ok a -> canonical a \/ a = mkBigInt [48%Z].
Proof.
  unfold BigInt_str.
  pose proof (find_first_not_of_0_spec (list_ascii_of_string s) 0) as F.
  destruct (find_first_not_of_0 (list_ascii_of_string s) 0) as [k|].
  - destruct F as (zeros & c & rest & E & Hz & Hc & ->). cbn [Nat.add].
    rewrite E. rewrite skipn_app, Nat.sub_diag, skipn_all. cbn [app skipn].
    destruct (parse_loop (rev (c :: rest)) []) as [ds| |] eqn:P; cbn [bind];
      try discriminate.
    intros [= <-]. left.
    pose proof (parse_loop_inv _ _ _ P) as Hd.
    rewrite parse_loop_ok in P by exact Hd. injection P as <-. cbn [app].
    apply canonical_canon. cbn [digits].
    apply Forall_rev in Hd. rewrite rev_involutive in Hd.
    apply parsed_canon; assumption.
  - intros [= <-]. right. reflexivity.
Qed.

(** A text of zeros only, the empty text included, takes the branch for
    [string::npos]. *)
Lemma BigInt_str_all_zeros s :
  Forall (fun c => c = "0"%char) (list_ascii_of_string s) ->
  BigInt_str s = Ok (mkBigInt [48%Z]).
Proof.
  intros H. unfold BigInt_str.
  pose proof (find_first_not_of_0_spec (list_ascii_of_string s) 0) as F.
  destruct (find_first_not_of_0 (list_ascii_of_string s) 0) as [k|]; [|reflexivity].
  destruct F as (zeros & c & rest & E & _ & Hc & _). exfalso. apply Hc.
  rewrite E in H. apply Forall_app in H. destruct H as [_ H].
  inversion H; assumption.
Qed.

Lemma BigInt_str_non_digit s a :
  BigInt_str s = Ok a -> a <> mkBigInt [48%Z] ->
  Forall is_digit_char (list_ascii_of_string s).
Proof.
  unfold BigInt_str.
  pose proof (find_first_not_of_0_spec (list_ascii_of_string s) 0) as F.
  destruct (find_first_not_of_0 (list_ascii_of_string s) 0) as [k|].
  - destruct F as (zeros & c & rest & E & Hz & Hc & ->). cbn [Nat.add].
    rewrite E. rewrite skipn_app, Nat.sub_diag, skipn_all. cbn [app skipn].
    destruct (parse_loop (rev (c :: rest)) []) as [ds| |] eqn:P; cbn [bind];
      try discriminate.
    intros _ _. apply parse_loop_inv in P.
    apply Forall_rev in P. rewrite rev_involutive in P.
    apply Forall_app. split; [|exact P].
    eapply Forall_impl; [|exact Hz]. intros x ->. reflexivity.
  - intros [= <-] N. exfalso. apply N. reflexivity.
Qed.

End Text.

(* ================================================================== *)
(** * The stated properties                                             *)
(* ================================================================== *)

Section Properties.

(** C1 (canonical-form invariant): the string constructor breaks it.  For
    the text "0" the constructor returns the one-character string whose
    character has code 48, which is not a digit in [0,9]; this value is not
    canonical and is not recognised by [is_zero].  (Every other text the
    constructor accepts, the constructor from a native integer, and the
    arithmetic on canonical values give canonical values: [BigInt_str_cases],
    [BigInt_ull_canonical], [op_add_spec], [op_sub_ok], [op_mul_spec],
    [op_div_ok], [op_mod_ok], [k_fold_product_spec], [sqrt_spec].) *)
Theorem parse_zero_not_canonical :
  BigInt_str "0" = Ok (mkBigInt [48])
  /\ ~ canonical (mkBigInt [48])
  /\ ~ Forall (fun d => 0 <= d <= 9) (digits (mkBigInt [48]))
  /\ is_zero (mkBigInt [48]) = false.
Proof.
  split; [reflexivity|]. split; [discriminate|]. split; [|reflexivity].
  intros H. inversion H as [|? ? Hd _]. lia.
Qed.

(** C2 (parse/render round trip): it fails for the text "0", which is
    parsed and rendered to "48". *)
Theorem parse_render_zero :
  exists a, BigInt_str "0" = Ok a /\ render a = "48"%string.
Proof. eexists. split; reflexivity. Qed.

(** C3 (division-remainder law): for canonical [a] and canonical non-zero
    [b], [a / b] and [a % b] return, [a == (a / b) * b + (a % b)] and
    [a % b < b]. *)
Theorem division_remainder_law (fuel : nat) (a b : BigInt) :
  (10 <= fuel)%nat -> canonical a -> canonical b -> is_zero b = false ->
  exists q r,
    op_div fuel a b = Ok q /\ op_mod fuel a b = Ok r
    /\ op_eq a (op_add (op_mul q b) r) = true
    /\ op_lt r b = true.
Proof.
  intros Hf Ha Hb Hz. rewrite is_zero_value in Hz by exact Hb.
  apply Z.eqb_neq in Hz.
  destruct (op_div_ok fuel a b Hf Ha Hb Hz) as (q & Eq & Hq & Vq).
  destruct (op_mod_ok fuel a b Hf Ha Hb Hz) as (r & Er & Hr & Vr).
  exists q, r.
  destruct (op_mul_spec q b Hq Hb) as [Hm Vm].
  destruct (op_add_spec (op_mul q b) r Hm Hr) as [Hs Vs].
  pose proof (canonical_nonneg b Hb).
  repeat split; auto.
  - rewrite op_eq_value by assumption. apply Z.eqb_eq.
    rewrite Vs, Vm, Vq, Vr.
    pose proof (Z.div_mod (Z_of a) (Z_of b) Hz). lia.
  - rewrite op_lt_value by assumption. apply Z.ltb_lt. rewrite Vr.
    apply Z.mod_pos_bound. lia.
Qed.

Lemma division_remainder_law_witness :
  exists q r,
    op_div 10 (BigInt_ull 100) (BigInt_ull 3) = Ok q
    /\ op_mod 10 (BigInt_ull 100) (BigInt_ull 3) = Ok r
    /\ op_eq (BigInt_ull 100) (op_add (op_mul q (BigInt_ull 3)) r) = true
    /\ op_lt r (BigInt_ull 3) = true.
Proof.
  apply (division_remainder_law 10 (BigInt_ull 100) (BigInt_ull 3));
    [lia | reflexivity | reflexivity | reflexivity].
Defined.

(** C4 (subtract-into): on canonical values [operator-=] throws
    [underflow_error] exactly when the receiver is smaller than the operand,
    a call that throws leaves the receiver as it was, and otherwise the call
    succeeds and the receiver becomes the canonical value of the exact
    difference. *)
Theorem subtract_into_underflow (a b : BigInt) :
  canonical a -> canonical b ->
  (op_lt a b = true <-> Z_of a < Z_of b)
  /\ (op_lt a b = true <->
      exists e, snd (op_sub_assign a b) = Throw e /\ kind_of e = Some Underflow)
  /\ (forall e, snd (op_sub_assign a b) = Throw e -> fst (op_sub_assign a b) = a)
  /\ (op_lt a b = false ->
      snd (op_sub_assign a b) = Ok tt
      /\ canonical (fst (op_sub_assign a b))
      /\ Z_of (fst (op_sub_assign a b)) = Z_of a - Z_of b).
Proof.
  intros Ha Hb.
  assert (Hlt : op_lt a b = true <-> Z_of a < Z_of b).
  { rewrite op_lt_value by assumption. apply Z.ltb_lt. }
  split; [exact Hlt|].
  destruct (op_lt a b) eqn:L.
  - rewrite (op_sub_assign_throw a b L). cbn [fst snd].
    repeat split; auto; try discriminate.
    intros _. eexists. split; reflexivity.
  - assert (Hle : Z_of b <= Z_of a).
    { destruct (Z.le_gt_cases (Z_of b) (Z_of a)) as [?|G]; [assumption|].
      apply Hlt in G. discriminate. }
    destruct (op_sub_assign_ok a b Ha Hb Hle) as (c & E & Hc & Vc).
    rewrite E. cbn [fst snd]. repeat split; auto; try discriminate.
    intros (e & He & _). discriminate.
Qed.

Lemma subtract_into_underflow_witness :
  (op_lt (BigInt_ull 5) (BigInt_ull 12) = true <-> Z_of (BigInt_ull 5) < Z_of (BigInt_ull 12))
  /\ (op_lt (BigInt_ull 5) (BigInt_ull 12) = true <->
      exists e, snd (op_sub_assign (BigInt_ull 5) (BigInt_ull 12)) = Throw e
                /\ kind_of e = Some Underflow)
  /\ (forall e, snd (op_sub_assign (BigInt_ull 5) (BigInt_ull 12)) = Throw e ->
                fst (op_sub_assign (BigInt_ull 5) (BigInt_ull 12)) = BigInt_ull 5)
  /\ (op_lt (BigInt_ull 5) (BigInt_ull 12) = false ->
      snd (op_sub_assign (BigInt_ull 5) (BigInt_ull 12)) = Ok tt
      /\ canonical (fst (op_sub_assign (BigInt_ull 5) (BigInt_ull 12)))
      /\ Z_of (fst (op_sub_assign (BigInt_ull 5) (BigInt_ull 12)))
         = Z_of (BigInt_ull 5) - Z_of (BigInt_ull 12)).
Proof.
  apply (subtract_into_underflow (BigInt_ull 5) (BigInt_ull 12)); reflexivity.
Defined.

(** C5 (integer square root): for canonical [a] and enough fuel, [sqrt]
    returns a canonical [r] with [r * r <= a] and
    [a < (r + 1) * (r + 1)]; [r] is the integer square root of [a]. *)
Theorem sqrt_bound (fuel : nat) (a : BigInt) :
  canonical a -> Z_of a + 12 <= Z.of_nat fuel ->
  exists r,
    sqrt fuel a = Ok r /\ canonical r
    /\ op_le (op_mul r r) a = true
    /\ op_lt a (op_mul (op_add r (BigInt_ull 1)) (op_add r (BigInt_ull 1))) = true
    /\ Z_of r = Z.sqrt (Z_of a).
Proof.
  intros Ha Hf.
  destruct (sqrt_spec a Ha fuel Hf) as (r & E & Hr & Hlo & Hhi).
  exists r.
  destruct (op_mul_spec r r Hr Hr) as [Hm Vm].
  destruct (op_add_spec r (BigInt_ull 1) Hr one_canonical) as [Hs Vs].
  change (Z_of (BigInt_ull 1)) with 1 in Vs.
  destruct (op_mul_spec _ _ Hs Hs) as [Hm' Vm'].
  pose proof (canonical_nonneg r Hr).
  repeat split; auto.
  - rewrite op_le_value by assumption. apply Z.leb_le. lia.
  - rewrite op_lt_value by assumption. apply Z.ltb_lt. rewrite Vm', Vs. lia.
  - symmetry. apply Z.sqrt_unique. lia.
Qed.

Lemma sqrt_bound_witness :
  exists r,
    sqrt 30 (BigInt_ull 17) = Ok r /\ canonical r
    /\ op_le (op_mul r r) (BigInt_ull 17) = true
    /\ op_lt (BigInt_ull 17)
          (op_mul (op_add r (BigInt_ull 1)) (op_add r (BigInt_ull 1))) = true
    /\ Z_of r = Z.sqrt (Z_of (BigInt_ull 17)).
Proof.
  apply (sqrt_bound 30 (BigInt_ull 17)); [reflexivity | vm_compute; discriminate].
Defined.

(** C6 (power): for canonical [a] and [e] and fuel above the exponent,
    [pow] returns one when [e] is zero and in every case the accumulator
    that starts at one and is multiplied by [a] once for each unit of [e];
    that value is canonical and denotes [a ^ e]. *)
Theorem pow_e_fold_product (fuel : nat) (a e : BigInt) :
  canonical a -> canonical e -> Z_of e < Z.of_nat fuel ->
  (is_zero e = true -> pow fuel a e = Ok (BigInt_ull 1))
  /\ pow fuel a e = Ok (k_fold_product a (Z.to_nat (Z_of e)))
  /\ canonical (k_fold_product a (Z.to_nat (Z_of e)))
  /\ Z_of (k_fold_product a (Z.to_nat (Z_of e))) = Z_of a ^ Z_of e.
Proof.
  intros Ha He Hf. split.
  - intros Hz. unfold pow. rewrite Hz. reflexivity.
  - split; [apply pow_spec; assumption|].
    destruct (k_fold_product_spec a (Z.to_nat (Z_of e)) Ha) as [Hc Hv].
    split; [exact Hc|]. rewrite Hv, Z2Nat.id; [reflexivity|].
    apply canonical_nonneg, He.
Qed.

Lemma pow_e_fold_product_witness :
  (is_zero (BigInt_ull 10) = true -> pow 11 (BigInt_ull 2) (BigInt_ull 10) = Ok (BigInt_ull 1))
  /\ pow 11 (BigInt_ull 2) (BigInt_ull 10)
     = Ok (k_fold_product (BigInt_ull 2) (Z.to_nat (Z_of (BigInt_ull 10))))
  /\ canonical (k_fold_product (BigInt_ull 2) (Z.to_nat (Z_of (BigInt_ull 10))))
  /\ Z_of (k_fold_product (BigInt_ull 2) (Z.to_nat (Z_of (BigInt_ull 10))))
     = Z_of (BigInt_ull 2) ^ Z_of (BigInt_ull 10).
Proof.
  apply (pow_e_fold_product 11 (BigInt_ull 2) (BigInt_ull 10));
    [reflexivity | reflexivity | vm_compute; reflexivity].
Defined.

(** C7 (division by zero): on canonical values, with enough fuel for the
    quotient digits, [/] and [%] throw the division-by-zero [runtime_error]
    exactly when the divisor is the zero value; for a non-zero divisor a
    smaller dividend gives zero and an equal dividend gives one. *)
Theorem division_by_zero (fuel : nat) (a b : BigInt) :
  (10 <= fuel)%nat -> canonical a -> canonical b ->
  (b = BigInt_ull 0 <->
   exists e, op_div fuel a b = Throw e /\ kind_of e = Some DivisionByZero)
  /\ (b = BigInt_ull 0 <->
      exists e, op_mod fuel a b = Throw e /\ kind_of e = Some DivisionByZero)
  /\ (b <> BigInt_ull 0 -> op_lt a b = true -> op_div fuel a b = Ok (BigInt_ull 0))
  /\ (b <> BigInt_ull 0 -> op_eq a b = true -> op_div fuel a b = Ok (BigInt_ull 1)).
Proof.
  intros Hf Ha Hb.
  assert (Hz : b = BigInt_ull 0 <-> Z_of b = 0).
  { split; [intros ->; reflexivity|].
    intros E. apply canonical_inj; auto using zero_canonical. }
  destruct (Z.eq_dec (Z_of b) 0) as [E|N].
  - assert (Hb0 : b = BigInt_ull 0) by (apply Hz, E). subst b.
    unfold op_div, op_div_assign, op_mod. cbn [is_zero BigInt_ull digits ull_loop].
    cbn. repeat split; try (intros _; eexists; split; reflexivity); congruence.
  - assert (Hnb : b <> BigInt_ull 0) by (rewrite Hz; exact N).
    destruct (op_div_ok fuel a b Hf Ha Hb N) as (q & Eq & Hq & Vq).
    destruct (op_mod_ok fuel a b Hf Ha Hb N) as (r & Er & Hr & Vr).
    rewrite Er.
    pose proof (canonical_nonneg a Ha). pose proof (canonical_nonneg b Hb).
    repeat split; try contradiction; try (intros (e & He & _); congruence).
    + intros _ L. rewrite op_lt_value in L by assumption. apply Z.ltb_lt in L.
      rewrite Eq. f_equal. apply canonical_inj; auto using zero_canonical.
      rewrite Vq, Z.div_small by lia. reflexivity.
    + intros _ L. rewrite op_eq_value in L by assumption. apply Z.eqb_eq in L.
      rewrite Eq. f_equal. apply canonical_inj; auto using one_canonical.
      rewrite Vq, L, Z.div_same by lia. reflexivity.
Qed.

Lemma division_by_zero_witness :
  (BigInt_ull 0 = BigInt_ull 0 <->
   exists e, op_div 10 (BigInt_ull 7) (BigInt_ull 0) = Throw e
             /\ kind_of e = Some DivisionByZero)
  /\ (BigInt_ull 0 = BigInt_ull 0 <->
      exists e, op_mod 10 (BigInt_ull 7) (BigInt_ull 0) = Throw e
                /\ kind_of e = Some DivisionByZero)
  /\ (BigInt_ull 0 <> BigInt_ull 0 -> op_lt (BigInt_ull 7) (BigInt_ull 0) = true ->
      op_div 10 (BigInt_ull 7) (BigInt_ull 0) = Ok (BigInt_ull 0))
  /\ (BigInt_ull 0 <> BigInt_ull 0 -> op_eq (BigInt_ull 7) (BigInt_ull 0) = true ->
      op_div 10 (BigInt_ull 7) (BigInt_ull 0) = Ok (BigInt_ull 1)).
Proof.
  apply (division_by_zero 10 (BigInt_ull 7) (BigInt_ull 0)); [lia | reflexivity | reflexivity].
Defined.

(** C8, as the code has it (factorial and Catalan numbers): for a native
    [k] with [0 <= k < INT_MAX], [factorial k] is the product of 1..k; for a
    native [n >= 0] whose double is a native [int], [catalan n] is the
    quotient of [factorial (2 * n)] by [factorial (n + 1) * factorial n]; for
    a negative [m] both throw [invalid_argument]. *)
Theorem factorial_catalan_in_range (fuel : nat) (k n m : Z) :
  0 <= k < INT_MAX -> k < Z.of_nat fuel ->
  0 <= n -> 2 * n <= INT_MAX -> 2 * n + 10 <= Z.of_nat fuel ->
  m < 0 ->
  (exists r, factorial fuel k = Ok r /\ canonical r /\ Z_of r = product_1_to k)
  /\ (exists num f1 f0 r,
        factorial fuel (2 * n) = Ok num /\ factorial fuel (n + 1) = Ok f1
        /\ factorial fuel n = Ok f0
        /\ op_div fuel num (op_mul f1 f0) = Ok r
        /\ catalan fuel n = Ok r /\ canonical r
        /\ Z_of r = product_1_to (2 * n) / (product_1_to (n + 1) * product_1_to n))
  /\ (exists e, factorial fuel m = Throw e /\ kind_of e = Some InvalidArgument)
  /\ (exists e, catalan fuel m = Throw e /\ kind_of e = Some InvalidArgument).
Proof.
  intros Hk Hkf Hn Hmax Hnf Hm. split; [|split; [|split]].
  - apply factorial_ok; assumption.
  - apply catalan_ok; assumption.
  - rewrite factorial_negative by exact Hm. eexists. split; reflexivity.
  - rewrite catalan_negative by exact Hm. eexists. split; reflexivity.
Qed.

Lemma factorial_catalan_in_range_witness :
  (exists r, factorial 20 5 = Ok r /\ canonical r /\ Z_of r = product_1_to 5)
  /\ (exists num f1 f0 r,
        factorial 20 (2 * 4) = Ok num /\ factorial 20 (4 + 1) = Ok f1
        /\ factorial 20 4 = Ok f0
        /\ op_div 20 num (op_mul f1 f0) = Ok r
        /\ catalan 20 4 = Ok r /\ canonical r
        /\ Z_of r = product_1_to (2 * 4) / (product_1_to (4 + 1) * product_1_to 4))
  /\ (exists e, factorial 20 (-1) = Throw e /\ kind_of e = Some InvalidArgument)
  /\ (exists e, catalan 20 (-1) = Throw e /\ kind_of e = Some InvalidArgument).
Proof.
  apply (factorial_catalan_in_range 20 5 4 (-1)); unfold INT_MAX; lia.
Defined.

(** C8 as stated fails: 1073741824 is a non-negative native [int], but its
    double is not an [int]; [2 * n] wraps to a negative number and
    [catalan] throws out of [factorial]. *)
Lemma catalan_int_overflow :
  0 <= 1073741824 <= INT_MAX
  /\ (forall fuel, catalan fuel 1073741824
                   = Throw (invalid_argument "Negative factorial"))
  /\ ~ (exists fuel r,
          catalan fuel 1073741824 = Ok r
          /\ Z_of r = product_1_to (2 * 1073741824)
                      / (product_1_to (1073741824 + 1) * product_1_to 1073741824)).
Proof.
  assert (H : forall fuel, catalan fuel 1073741824
                           = Throw (invalid_argument "Negative factorial")).
  { intros fuel. unfold catalan.
    change (1073741824 <? 0) with false. cbv iota.
    change (int_wrap (2 * 1073741824)) with (-2147483648).
    rewrite factorial_negative by lia. reflexivity. }
  split; [unfold INT_MAX; lia|]. split; [exact H|].
  intros (fuel & r & E & _). rewrite H in E. discriminate.
Qed.

(** C9 (construction from a native integer): for an [unsigned long long]
    [x], the value constructed from [x] is rendered to the decimal text of
    [x]; the value constructed from zero is the single digit 0. *)
Theorem construct_render (x : Z) :
  in_ull x ->
  render (BigInt_ull x) = decimal_string x
  /\ digits (BigInt_ull 0) = [0].
Proof.
  intros Hx. split; [|reflexivity].
  rewrite render_canonical by (apply BigInt_ull_canonical, Hx).
  rewrite BigInt_ull_value by exact Hx. reflexivity.
Qed.

Lemma construct_render_witness :
  render (BigInt_ull 18446744073709551615) = decimal_string 18446744073709551615
  /\ digits (BigInt_ull 0) = [0].
Proof.
  apply (construct_render 18446744073709551615).
  unfold in_ull, ULLONG_MAX. lia.
Defined.

(** C10 (Fibonacci of a negative argument): for a negative native [n],
    [fibonacci n] returns the value one and throws nothing, where
    [factorial n] and [catalan n] throw [invalid_argument]. *)
Theorem fibonacci_negative_is_one (fuel : nat) (n : Z) :
  in_int n -> n < 0 -> (0 < fuel)%nat ->
  fibonacci fuel n = Ok (BigInt_ull 1)
  /\ Z_of (BigInt_ull 1) = 1
  /\ factorial fuel n = Throw (invalid_argument "Negative factorial")
  /\ catalan fuel n = Throw (invalid_argument "Negative Catalan number").
Proof.
  intros _ Hn Hf. split; [apply fibonacci_negative; assumption|].
  split; [reflexivity|].
  split; [apply factorial_negative|apply catalan_negative]; exact Hn.
Qed.

Lemma fibonacci_negative_is_one_witness :
  fibonacci 1 (-3) = Ok (BigInt_ull 1)
  /\ Z_of (BigInt_ull 1) = 1
  /\ factorial 1 (-3) = Throw (invalid_argument "Negative factorial")
  /\ catalan 1 (-3) = Throw (invalid_argument "Negative Catalan number").
Proof.
  apply (fibonacci_negative_is_one 1 (-3));
    [unfold in_int, INT_MIN, INT_MAX; lia | lia | lia].
Defined.

(** The canonical-form invariant where it does hold: the constructor from a
    native integer, the string constructor on every text it accepts that
    has a character other than '0', and the arithmetic on canonical
    values. *)
Theorem canonical_form_preserved (fuel : nat) (a b : BigInt) :
  canonical a -> canonical b ->
  (forall x, in_ull x -> canonical (BigInt_ull x))
  /\ (forall s v, BigInt_str s = Ok v -> v <> mkBigInt [48] -> canonical v)
  /\ canonical (op_add a b)
  /\ (forall c, op_sub a b = Ok c -> canonical c)
  /\ canonical (op_mul a b)
  /\ (forall q, (10 <= fuel)%nat -> op_div fuel a b = Ok q -> canonical q)
  /\ (forall r, (10 <= fuel)%nat -> op_mod fuel a b = Ok r -> canonical r)
  /\ (forall p, Z_of b < Z.of_nat fuel -> pow fuel a b = Ok p -> canonical p)
  /\ (forall r, Z_of a + 12 <= Z.of_nat fuel -> sqrt fuel a = Ok r -> canonical r).
Proof.
  intros Ha Hb.
  pose proof (canonical_nonneg a Ha) as Ha0.
  pose proof (canonical_nonneg b Hb) as Hb0.
  repeat split.
  - apply BigInt_ull_canonical.
  - intros s v E N. destruct (BigInt_str_cases s v E); [assumption|contradiction].
  - apply op_add_spec; assumption.
  - intros c E. destruct (Z.le_gt_cases (Z_of b) (Z_of a)) as [L|G].
    + destruct (op_sub_ok a b Ha Hb L) as (c' & E' & Hc & _). congruence.
    + unfold op_sub in E. rewrite op_sub_assign_throw in E; [discriminate|].
      rewrite op_lt_value by assumption. apply Z.ltb_lt. exact G.
  - apply op_mul_spec; assumption.
  - intros q Hf E. destruct (Z.eq_dec (Z_of b) 0) as [Z0|N0].
    + unfold op_div, op_div_assign in E.
      rewrite is_zero_value, Z0 in E by assumption. discriminate.
    + destruct (op_div_ok fuel a b Hf Ha Hb N0) as (q' & E' & Hq & _). congruence.
  - intros r Hf E. destruct (Z.eq_dec (Z_of b) 0) as [Z0|N0].
    + unfold op_mod in E. rewrite is_zero_value, Z0 in E by assumption. discriminate.
    + destruct (op_mod_ok fuel a b Hf Ha Hb N0) as (r' & E' & Hr & _). congruence.
  - intros p Hf E. rewrite pow_spec in E by assumption. injection E as <-.
    apply k_fold_product_spec. exact Ha.
  - intros r Hf E. destruct (sqrt_spec a Ha fuel Hf) as (r' & E' & Hr & _). congruence.
Qed.

End Properties.

(* ================================================================== *)
(** * The scenarios of the demonstration program                        *)
(* ================================================================== *)

Section Scenarios.

Example scenario_add :
  (a <- BigInt_str "123456789" ;; b <- BigInt_str "987654321" ;;
   Ok (render (op_add a b))) = Ok "1111111110"%string.
Proof. vm_compute. reflexivity. Qed.

Example scenario_sub :
  (a <- BigInt_str "123456789" ;; b <- BigInt_str "987654321" ;;
   c <- op_sub b a ;; Ok (render c)) = Ok "864197532"%string.
Proof. vm_compute. reflexivity. Qed.

Example scenario_mul :
  (a <- BigInt_str "123456789" ;; b <- BigInt_str "987654321" ;;
   Ok (render (op_mul a b))) = Ok "121932631112635269"%string.
Proof. vm_compute. reflexivity. Qed.

Example scenario_div_mod :
  (c <- BigInt_str "100" ;; d <- BigInt_str "3" ;;
   q <- op_div 10 c d ;; r <- op_mod 10 c d ;;
   Ok (render q, render r)) = Ok ("33"%string, "1"%string).
Proof. vm_compute. reflexivity. Qed.

Example scenario_pow :
  (e <- BigInt_str "2" ;; p <- pow 11 e (BigInt_ull 10) ;; Ok (render p))
  = Ok "1024"%string.
Proof. vm_compute. reflexivity. Qed.

Example scenario_sqrt :
  (f <- BigInt_str "1000000" ;; r <- sqrt 40 f ;; Ok (render r)) = Ok "1000"%string.
Proof. vm_compute. reflexivity. Qed.

Example scenario_special :
  (x <- factorial 10 5 ;; y <- fibonacci 10 10 ;; z <- catalan 10 4 ;;
   Ok (render x, render y, render z))
  = Ok ("120"%string, "55"%string, "14"%string).
Proof. vm_compute. reflexivity. Qed.

Example scenario_underflow :
  exists e, op_sub (BigInt_ull 5) (BigInt_ull 12) = Throw e /\ kind_of e = Some Underflow.
Proof. eexists. split; reflexivity. Qed.

Example scenario_invalid_format :
  exists e, BigInt_str "12a3" = Throw e /\ kind_of_parse e = Some InvalidFormat.
Proof. eexists. split; reflexivity. Qed.

End Scenarios.

(* ================================================================== *)
(** * Further properties: representation and order                      *)
(* ================================================================== *)

Section Representation.

(** X1: the constructor from a native integer gives the canonical value
    that denotes the integer. *)
Theorem construct_from_native (x : Z) :
  in_ull x -> canonical (BigInt_ull x) /\ Z_of (BigInt_ull x) = x.
Proof. apply BigInt_ull_spec. Qed.

Lemma construct_from_native_witness :
  canonical (BigInt_ull 9007199254740993)
  /\ Z_of (BigInt_ull 9007199254740993) = 9007199254740993.
Proof.
  apply (construct_from_native 9007199254740993).
  unfold in_ull, ULLONG_MAX. lia.
Defined.

Lemma pop_zeros_idempotent m : pop_zeros (pop_zeros m) = pop_zeros m.
Proof.
  induction m as [|d m IH]; [reflexivity|].
  cbn [pop_zeros]. destruct m as [|e m]; [reflexivity|].
  destruct (Z.eqb_spec d 0) as [->|Hd]; [exact IH|].
  cbn [pop_zeros]. destruct (Z.eqb_spec d 0); [contradiction|reflexivity].
Qed.

(** X6: [remove_leading_zeros] keeps the number and is idempotent on every
    digit string, never empties a string, and turns a non-empty string of
    digits in [0,9] into a canonical value. *)
Theorem remove_leading_zeros_normalises (a : BigInt) :
  digits a <> [] -> Forall is_digit (digits a) ->
  canonical (remove_leading_zeros a)
  /\ Z_of (remove_leading_zeros a) = Z_of a
  /\ remove_leading_zeros (remove_leading_zeros a) = remove_leading_zeros a
  /\ digits (remove_leading_zeros a) <> [].
Proof.
  intros Hne Hd. destruct a as [l]. cbn [digits] in *.
  assert (C : canon (digits (remove_leading_zeros (mkBigInt l))))
    by (apply rlz_canon; assumption).
  split; [apply canonical_canon, C|]. split; [apply rlz_value|].
  split; [|apply C].
  unfold remove_leading_zeros. cbn [digits].
  rewrite rev_involutive, pop_zeros_idempotent. reflexivity.
Qed.

Lemma remove_leading_zeros_normalises_witness :
  canonical (remove_leading_zeros (mkBigInt [7; 0; 3; 0; 0]))
  /\ Z_of (remove_leading_zeros (mkBigInt [7; 0; 3; 0; 0])) = Z_of (mkBigInt [7; 0; 3; 0; 0])
  /\ remove_leading_zeros (remove_leading_zeros (mkBigInt [7; 0; 3; 0; 0]))
     = remove_leading_zeros (mkBigInt [7; 0; 3; 0; 0])
  /\ digits (remove_leading_zeros (mkBigInt [7; 0; 3; 0; 0])) <> [].
Proof.
  apply (remove_leading_zeros_normalises (mkBigInt [7; 0; 3; 0; 0]));
    [discriminate | repeat constructor; lia].
Defined.

(** X24: [length] of a canonical value other than zero is the number of
    decimal digits of the number it denotes; the length of zero is one. *)
Theorem length_counts_digits (a : BigInt) :
  canonical a ->
  (0 < length a)%nat
  /\ Z_of a < 10 ^ Z.of_nat (length a)
  /\ (0 < Z_of a -> 10 ^ Z.of_nat (length a - 1) <= Z_of a)
  /\ (Z_of a = 0 -> length a = 1%nat).
Proof.
  intros Ha. apply canonical_canon in Ha. unfold length, Z_of.
  pose proof Ha as (Hne & Hd & Hlast).
  pose proof (value_bound _ Hd) as B.
  assert (L : (0 < List.length (digits a))%nat)
    by (destruct (digits a); [congruence|cbn; lia]).
  split; [exact L|]. split; [lia|]. split.
  - intros Hpos.
    destruct (Nat.eq_dec (List.length (digits a)) 1) as [E|N].
    + rewrite E. change (10 ^ Z.of_nat (1 - 1)) with 1. lia.
    + apply canon_lower; [exact Ha|lia].
  - intros Hz.
    destruct (Nat.eq_dec (List.length (digits a)) 1) as [E|N]; [exact E|].
    pose proof (canon_lower _ Ha ltac:(lia)) as Low.
    pose proof (pow10_pos (List.length (digits a) - 1)). lia.
Qed.

Lemma length_counts_digits_witness :
  (0 < length (BigInt_ull 4096))%nat
  /\ Z_of (BigInt_ull 4096) < 10 ^ Z.of_nat (length (BigInt_ull 4096))
  /\ (0 < Z_of (BigInt_ull 4096) ->
      10 ^ Z.of_nat (length (BigInt_ull 4096) - 1) <= Z_of (BigInt_ull 4096))
  /\ (Z_of (BigInt_ull 4096) = 0 -> length (BigInt_ull 4096) = 1%nat).
Proof. apply (length_counts_digits (BigInt_ull 4096)). reflexivity. Defined.

(** X7: on canonical values the six comparison operators decide the order
    of the numbers. *)
Theorem comparisons_decide_order (a b : BigInt) :
  canonical a -> canonical b ->
  (op_lt a b = true <-> Z_of a < Z_of b)
  /\ (op_gt a b = true <-> Z_of a > Z_of b)
  /\ (op_le a b = true <-> Z_of a <= Z_of b)
  /\ (op_ge a b = true <-> Z_of a >= Z_of b)
  /\ (op_eq a b = true <-> Z_of a = Z_of b)
  /\ (op_ne a b = true <-> Z_of a <> Z_of b).
Proof.
  intros Ha Hb. unfold op_gt, op_ne.
  rewrite op_le_value, op_ge_value, op_eq_value, !op_lt_value by assumption.
  rewrite negb_true_iff, !Z.ltb_lt, !Z.leb_le, Z.eqb_eq, Z.eqb_neq.
  repeat split; intros; lia.
Qed.

Lemma comparisons_decide_order_witness :
  (op_lt (BigInt_ull 99) (BigInt_ull 100) = true <-> Z_of (BigInt_ull 99) < Z_of (BigInt_ull 100))
  /\ (op_gt (BigInt_ull 99) (BigInt_ull 100) = true <-> Z_of (BigInt_ull 99) > Z_of (BigInt_ull 100))
  /\ (op_le (BigInt_ull 99) (BigInt_ull 100) = true <-> Z_of (BigInt_ull 99) <= Z_of (BigInt_ull 100))
  /\ (op_ge (BigInt_ull 99) (BigInt_ull 100) = true <-> Z_of (BigInt_ull 99) >= Z_of (BigInt_ull 100))
  /\ (op_eq (BigInt_ull 99) (BigInt_ull 100) = true <-> Z_of (BigInt_ull 99) = Z_of (BigInt_ull 100))
  /\ (op_ne (BigInt_ull 99) (BigInt_ull 100) = true <-> Z_of (BigInt_ull 99) <> Z_of (BigInt_ull 100)).
Proof.
  apply (comparisons_decide_order (BigInt_ull 99) (BigInt_ull 100)); reflexivity.
Defined.

Lemma lt_from_back_irrefl l : lt_from_back l l = false.
Proof.
  induction l as [|x l IH]; [reflexivity|].
  cbn [lt_from_back]. rewrite Z.eqb_refl. exact IH.
Qed.

Lemma lt_from_back_trans l1 : forall l2 l3,
  lt_from_back l1 l2 = true -> lt_from_back l2 l3 = true -> lt_from_back l1 l3 = true.
Proof.
  induction l1 as [|x l1 IH]; intros [|y l2] [|z l3]; cbn [lt_from_back];
    try discriminate.
  destruct (Z.eqb_spec x y) as [->|Hxy]; cbn [negb].
  - destruct (Z.eqb_spec y z) as [->|Hyz]; cbn [negb]; [apply IH|auto].
  - destruct (Z.eqb_spec y z) as [->|Hyz]; cbn [negb].
    + destruct (Z.eqb_spec x z); [contradiction|auto].
    + rewrite !Z.ltb_lt. intros H1 H2.
      destruct (Z.eqb_spec x z); cbn [negb]; [lia|]. apply Z.ltb_lt. lia.
Qed.

Lemma lt_from_back_total l1 : forall l2,
  List.length l1 = List.length l2 ->
  lt_from_back l1 l2 = false -> lt_from_back l2 l1 = false -> l1 = l2.
Proof.
  induction l1 as [|x l1 IH]; intros [|y l2] Hlen; try discriminate; [reflexivity|].
  cbn [lt_from_back]. rewrite (Z.eqb_sym y x).
  destruct (Z.eqb_spec x y) as [->|Hxy]; cbn [negb].
  - intros H1 H2. f_equal. apply IH; auto.
  - rewrite !Z.ltb_ge. lia.
Qed.

(** X8: [operator<] is a strict total order on all digit strings, canonical
    or not: it is irreflexive and transitive, and of two values exactly one
    is smaller unless they are equal for [operator==], which holds exactly
    for identical digit strings. *)
Theorem lt_strict_total_order (a b c : BigInt) :
  op_lt a a = false
  /\ (op_lt a b = true -> op_lt b c = true -> op_lt a c = true)
  /\ (op_lt a b = true -> op_lt b a = false)
  /\ (op_lt a b = true \/ op_eq a b = true \/ op_lt b a = true)
  /\ (op_eq a b = true <-> a = b).
Proof.
  unfold op_lt, length.
  set (la := List.length (digits a)). set (lb := List.length (digits b)).
  set (lc := List.length (digits c)).
  assert (Irr : forall l, lt_from_back l l = false) by apply lt_from_back_irrefl.
  split; [|split; [|split; [|split]]].
  - rewrite Nat.eqb_refl. cbn [negb]. apply Irr.
  - destruct (Nat.eqb_spec la lb) as [E1|N1]; cbn [negb];
      destruct (Nat.eqb_spec lb lc) as [E2|N2]; cbn [negb];
      destruct (Nat.eqb_spec la lc) as [E3|N3]; cbn [negb];
      rewrite ?Nat.ltb_lt; try lia.
    apply lt_from_back_trans.
  - destruct (Nat.eqb_spec la lb) as [E1|N1]; cbn [negb];
      destruct (Nat.eqb_spec lb la) as [E2|N2]; cbn [negb];
      rewrite ?Nat.ltb_lt, ?Nat.ltb_ge; try lia.
    intros H. destruct (lt_from_back (rev (digits b)) (rev (digits a))) eqn:G;
      [|reflexivity].
    pose proof (lt_from_back_trans _ _ _ H G) as T. rewrite Irr in T. discriminate.
  - rewrite op_eq_true.
    destruct (Nat.eqb_spec la lb) as [E1|N1]; cbn [negb];
      destruct (Nat.eqb_spec lb la) as [E2|N2]; cbn [negb];
      rewrite ?Nat.ltb_lt; try lia.
    destruct (lt_from_back (rev (digits a)) (rev (digits b))) eqn:G1; [auto|].
    destruct (lt_from_back (rev (digits b)) (rev (digits a))) eqn:G2; [auto|].
    right; left.
    assert (R : rev (digits a) = rev (digits b)).
    { apply lt_from_back_total; auto. rewrite !length_rev. exact E1. }
    apply (f_equal (@rev Z)) in R. rewrite !rev_involutive in R.
    destruct a, b. cbn [digits] in R. congruence.
  - apply op_eq_true.
Qed.

End Representation.

(* ================================================================== *)
(** * Further properties: arithmetic                                    *)
(* ================================================================== *)

Section Arithmetic.

(** X9: the sum of two canonical values is the canonical value of the sum
    of their numbers; addition never fails. *)
Theorem addition_correct (a b : BigInt) :
  canonical a -> canonical b ->
  canonical (op_add a b) /\ Z_of (op_add a b) = Z_of a + Z_of b.
Proof. apply op_add_spec. Qed.

Lemma addition_correct_witness :
  canonical (op_add (BigInt_ull 999999) (BigInt_ull 1))
  /\ Z_of (op_add (BigInt_ull 999999) (BigInt_ull 1))
     = Z_of (BigInt_ull 999999) + Z_of (BigInt_ull 1).
Proof. apply (addition_correct (BigInt_ull 999999) (BigInt_ull 1)); reflexivity. Defined.

Ltac by_value :=
  apply canonical_inj;
  repeat match goal with
         | |- canonical (op_add _ _) => apply op_add_spec
         | |- canonical (op_mul _ _) => apply op_mul_spec
         | |- canonical (BigInt_ull 0) => exact zero_canonical
         | |- canonical (BigInt_ull 1) => exact one_canonical
         | |- canonical _ => assumption
         end.

Lemma add_value a b : canonical a -> canonical b -> Z_of (op_add a b) = Z_of a + Z_of b.
Proof. intros Ha Hb. apply op_add_spec; assumption. Qed.

Lemma mul_value a b : canonical a -> canonical b -> Z_of (op_mul a b) = Z_of a * Z_of b.
Proof. intros Ha Hb. apply op_mul_spec; assumption. Qed.

Lemma add_canonical a b : canonical a -> canonical b -> canonical (op_add a b).
Proof. intros Ha Hb. apply op_add_spec; assumption. Qed.

Lemma mul_canonical a b : canonical a -> canonical b -> canonical (op_mul a b).
Proof. intros Ha Hb. apply op_mul_spec; assumption. Qed.

(** X10: on canonical values addition is commutative and associative and
    zero is its neutral element, as equalities of the digit strings. *)
Theorem addition_laws (a b c : BigInt) :
  canonical a -> canonical b -> canonical c ->
  op_add a b = op_add b a
  /\ op_add (op_add a b) c = op_add a (op_add b c)
  /\ op_add a (BigInt_ull 0) = a
  /\ op_add (BigInt_ull 0) a = a.
Proof.
  intros Ha Hb Hc.
  pose proof zero_canonical as H0.
  repeat split; by_value;
    repeat (rewrite add_value by auto using add_canonical);
    change (Z_of (BigInt_ull 0)) with 0; ring.
Qed.

Lemma addition_laws_witness :
  op_add (BigInt_ull 95) (BigInt_ull 7) = op_add (BigInt_ull 7) (BigInt_ull 95)
  /\ op_add (op_add (BigInt_ull 95) (BigInt_ull 7)) (BigInt_ull 998)
     = op_add (BigInt_ull 95) (op_add (BigInt_ull 7) (BigInt_ull 998))
  /\ op_add (BigInt_ull 95) (BigInt_ull 0) = BigInt_ull 95
  /\ op_add (BigInt_ull 0) (BigInt_ull 95) = BigInt_ull 95.
Proof.
  apply (addition_laws (BigInt_ull 95) (BigInt_ull 7) (BigInt_ull 998)); reflexivity.
Defined.

(** X11: subtraction undoes addition: [(a + b) - b] returns [a], and
    [a - a] returns zero; neither throws. *)
Theorem subtraction_undoes_addition (a b : BigInt) :
  canonical a -> canonical b ->
  op_sub (op_add a b) b = Ok a /\ op_sub a a = Ok (BigInt_ull 0).
Proof.
  intros Ha Hb.
  pose proof (canonical_nonneg a Ha). pose proof (canonical_nonneg b Hb).
  split.
  - destruct (op_sub_ok (op_add a b) b) as (c & E & Hc & Vc);
      auto using add_canonical.
    + rewrite add_value by assumption. lia.
    + rewrite E. f_equal. apply canonical_inj; auto.
      rewrite Vc, add_value by assumption. ring.
  - destruct (op_sub_ok a a Ha Ha ltac:(lia)) as (c & E & Hc & Vc).
    rewrite E. f_equal. apply canonical_inj; auto using zero_canonical.
    rewrite Vc. change (Z_of (BigInt_ull 0)) with 0. ring.
Qed.

Lemma subtraction_undoes_addition_witness :
  op_sub (op_add (BigInt_ull 1000) (BigInt_ull 1)) (BigInt_ull 1) = Ok (BigInt_ull 1000)
  /\ op_sub (BigInt_ull 1000) (BigInt_ull 1000) = Ok (BigInt_ull 0).
Proof.
  apply (subtraction_undoes_addition (BigInt_ull 1000) (BigInt_ull 1)); reflexivity.
Defined.

(** X12: the product of two canonical values is the canonical value of the
    product of their numbers; multiplication never fails. *)
Theorem multiplication_correct (a b : BigInt) :
  canonical a -> canonical b ->
  canonical (op_mul a b) /\ Z_of (op_mul a b) = Z_of a * Z_of b.
Proof. apply op_mul_spec. Qed.

Lemma multiplication_correct_witness :
  canonical (op_mul (BigInt_ull 99999) (BigInt_ull 99999))
  /\ Z_of (op_mul (BigInt_ull 99999) (BigInt_ull 99999))
     = Z_of (BigInt_ull 99999) * Z_of (BigInt_ull 99999).
Proof.
  apply (multiplication_correct (BigInt_ull 99999) (BigInt_ull 99999)); reflexivity.
Defined.

(** X13: on canonical values multiplication is commutative and
    associative, distributes over addition, has one as its neutral element
    and zero as its absorbing element. *)
Theorem multiplication_laws (a b c : BigInt) :
  canonical a -> canonical b -> canonical c ->
  op_mul a b = op_mul b a
  /\ op_mul (op_mul a b) c = op_mul a (op_mul b c)
  /\ op_mul a (op_add b c) = op_add (op_mul a b) (op_mul a c)
  /\ op_mul a (BigInt_ull 1) = a
  /\ op_mul a (BigInt_ull 0) = BigInt_ull 0.
Proof.
  intros Ha Hb Hc.
  pose proof zero_canonical as H0. pose proof one_canonical as H1.
  repeat split; by_value;
    repeat (first [rewrite mul_value by auto using add_canonical, mul_canonical
                  |rewrite add_value by auto using add_canonical, mul_canonical]);
    change (Z_of (BigInt_ull 0)) with 0; change (Z_of (BigInt_ull 1)) with 1; ring.
Qed.

Lemma multiplication_laws_witness :
  op_mul (BigInt_ull 12) (BigInt_ull 34) = op_mul (BigInt_ull 34) (BigInt_ull 12)
  /\ op_mul (op_mul (BigInt_ull 12) (BigInt_ull 34)) (BigInt_ull 56)
     = op_mul (BigInt_ull 12) (op_mul (BigInt_ull 34) (BigInt_ull 56))
  /\ op_mul (BigInt_ull 12) (op_add (BigInt_ull 34) (BigInt_ull 56))
     = op_add (op_mul (BigInt_ull 12) (BigInt_ull 34)) (op_mul (BigInt_ull 12) (BigInt_ull 56))
  /\ op_mul (BigInt_ull 12) (BigInt_ull 1) = BigInt_ull 12
  /\ op_mul (BigInt_ull 12) (BigInt_ull 0) = BigInt_ull 0.
Proof.
  apply (multiplication_laws (BigInt_ull 12) (BigInt_ull 34) (BigInt_ull 56)); reflexivity.
Defined.

(** X14: division undoes multiplication: for canonical [a] and canonical
    non-zero [b], [(a * b) / b] returns [a] and [(a * b) % b] returns zero. *)
Theorem division_undoes_multiplication (fuel : nat) (a b : BigInt) :
  (10 <= fuel)%nat -> canonical a -> canonical b -> is_zero b = false ->
  op_div fuel (op_mul a b) b = Ok a
  /\ op_mod fuel (op_mul a b) b = Ok (BigInt_ull 0).
Proof.
  intros Hf Ha Hb Hz. rewrite is_zero_value in Hz by exact Hb.
  apply Z.eqb_neq in Hz.
  pose proof (mul_canonical a b Ha Hb) as Hm.
  destruct (op_div_ok fuel (op_mul a b) b Hf Hm Hb Hz) as (q & Eq & Hq & Vq).
  destruct (op_mod_ok fuel (op_mul a b) b Hf Hm Hb Hz) as (r & Er & Hr & Vr).
  rewrite mul_value in Vq, Vr by assumption.
  rewrite Z.div_mul in Vq by exact Hz. rewrite Z.mod_mul in Vr by exact Hz.
  rewrite Eq, Er. split; f_equal; apply canonical_inj; auto using zero_canonical.
Qed.

Lemma division_undoes_multiplication_witness :
  op_div 10 (op_mul (BigInt_ull 123456) (BigInt_ull 789)) (BigInt_ull 789)
  = Ok (BigInt_ull 123456)
  /\ op_mod 10 (op_mul (BigInt_ull 123456) (BigInt_ull 789)) (BigInt_ull 789)
     = Ok (BigInt_ull 0).
Proof.
  apply (division_undoes_multiplication 10 (BigInt_ull 123456) (BigInt_ull 789));
    [lia | reflexivity | reflexivity | reflexivity].
Defined.

(** X15: the quotient and the remainder are those of the floor division of
    the numbers, and both are canonical. *)
Theorem quotient_and_remainder (fuel : nat) (a b : BigInt) :
  (10 <= fuel)%nat -> canonical a -> canonical b -> is_zero b = false ->
  exists q r,
    op_div fuel a b = Ok q /\ op_mod fuel a b = Ok r
    /\ canonical q /\ canonical r
    /\ Z_of q = Z_of a / Z_of b /\ Z_of r = Z_of a mod Z_of b.
Proof.
  intros Hf Ha Hb Hz. rewrite is_zero_value in Hz by exact Hb.
  apply Z.eqb_neq in Hz.
  destruct (op_div_ok fuel a b Hf Ha Hb Hz) as (q & Eq & Hq & Vq).
  destruct (op_mod_ok fuel a b Hf Ha Hb Hz) as (r & Er & Hr & Vr).
  exists q, r. repeat split; assumption.
Qed.

Lemma quotient_and_remainder_witness :
  exists q r,
    op_div 10 (BigInt_ull 1000000007) (BigInt_ull 97) = Ok q
    /\ op_mod 10 (BigInt_ull 1000000007) (BigInt_ull 97) = Ok r
    /\ canonical q /\ canonical r
    /\ Z_of q = Z_of (BigInt_ull 1000000007) / Z_of (BigInt_ull 97)
    /\ Z_of r = Z_of (BigInt_ull 1000000007) mod Z_of (BigInt_ull 97).
Proof.
  apply (quotient_and_remainder 10 (BigInt_ull 1000000007) (BigInt_ull 97));
    [lia | reflexivity | reflexivity | reflexivity].
Defined.

(** X16: powers compose: [pow a 1] is [a], and the power for the sum of two
    exponents is the product of the two powers. *)
Theorem power_of_sum (fuel : nat) (a e1 e2 : BigInt) :
  canonical a -> canonical e1 -> canonical e2 ->
  Z_of e1 + Z_of e2 < Z.of_nat fuel -> (2 <= fuel)%nat ->
  exists p1 p2,
    pow fuel a e1 = Ok p1 /\ pow fuel a e2 = Ok p2
    /\ pow fuel a (op_add e1 e2) = Ok (op_mul p1 p2)
    /\ pow fuel a (BigInt_ull 1) = Ok a.
Proof.
  intros Ha H1 H2 Hf Hf2.
  pose proof (canonical_nonneg e1 H1). pose proof (canonical_nonneg e2 H2).
  pose proof (add_canonical e1 e2 H1 H2) as Hs.
  pose proof (add_value e1 e2 H1 H2) as Vs.
  rewrite !pow_spec by (auto using one_canonical;
                        rewrite ?Vs; change (Z_of (BigInt_ull 1)) with 1; lia).
  do 2 eexists. repeat split; f_equal.
  - destruct (k_fold_product_spec a (Z.to_nat (Z_of e1)) Ha) as [C1 V1].
    destruct (k_fold_product_spec a (Z.to_nat (Z_of e2)) Ha) as [C2 V2].
    destruct (k_fold_product_spec a (Z.to_nat (Z_of (op_add e1 e2))) Ha) as [C3 V3].
    apply canonical_inj; auto using mul_canonical.
    rewrite mul_value, V1, V2, V3, Vs, !Z2Nat.id by (auto; lia).
    apply Z.pow_add_r; lia.
  - destruct (k_fold_product_spec a (Z.to_nat (Z_of (BigInt_ull 1))) Ha) as [C V].
    apply canonical_inj; auto. rewrite V. change (Z.of_nat _) with 1. apply Z.pow_1_r.
Qed.

Lemma power_of_sum_witness :
  exists p1 p2,
    pow 10 (BigInt_ull 3) (BigInt_ull 4) = Ok p1
    /\ pow 10 (BigInt_ull 3) (BigInt_ull 5) = Ok p2
    /\ pow 10 (BigInt_ull 3) (op_add (BigInt_ull 4) (BigInt_ull 5)) = Ok (op_mul p1 p2)
    /\ pow 10 (BigInt_ull 3) (BigInt_ull 1) = Ok (BigInt_ull 3).
Proof.
  apply (power_of_sum 10 (BigInt_ull 3) (BigInt_ull 4) (BigInt_ull 5));
    [reflexivity | reflexivity | reflexivity | vm_compute; reflexivity | lia].
Defined.

(** X17: the square root of a square is the value that was squared, and the
    square root is monotone. *)
Theorem sqrt_of_square (fuel : nat) (a b : BigInt) :
  canonical a -> canonical b -> Z_of a <= Z_of b ->
  Z_of b * Z_of b + 12 <= Z.of_nat fuel ->
  sqrt fuel (op_mul a a) = Ok a
  /\ exists ra rb, sqrt fuel a = Ok ra /\ sqrt fuel b = Ok rb /\ op_le ra rb = true.
Proof.
  intros Ha Hb Hab Hf.
  pose proof (canonical_nonneg a Ha). pose proof (canonical_nonneg b Hb).
  pose proof (mul_canonical a a Ha Ha) as Hm. pose proof (mul_value a a Ha Ha) as Vm.
  split.
  - destruct (sqrt_spec (op_mul a a) Hm fuel) as (r & E & Hr & Lo & Hi).
    { rewrite Vm. nia. }
    rewrite E. f_equal. apply canonical_inj; auto.
    pose proof (canonical_nonneg r Hr). rewrite Vm in Lo, Hi. nia.
  - destruct (sqrt_spec a Ha fuel ltac:(nia)) as (ra & Ea & Hra & Loa & Hia).
    destruct (sqrt_spec b Hb fuel ltac:(nia)) as (rb & Eb & Hrb & Lob & Hib).
    exists ra, rb. repeat split; auto.
    rewrite op_le_value by assumption. apply Z.leb_le.
    pose proof (canonical_nonneg ra Hra). pose proof (canonical_nonneg rb Hrb). nia.
Qed.

Lemma sqrt_of_square_witness :
  sqrt 40 (op_mul (BigInt_ull 4) (BigInt_ull 4)) = Ok (BigInt_ull 4)
  /\ exists ra rb, sqrt 40 (BigInt_ull 4) = Ok ra /\ sqrt 40 (BigInt_ull 5) = Ok rb
                   /\ op_le ra rb = true.
Proof.
  apply (sqrt_of_square 40 (BigInt_ull 4) (BigInt_ull 5));
    [reflexivity | reflexivity | vm_compute; discriminate | vm_compute; discriminate].
Defined.

End Arithmetic.

(* ================================================================== *)
(** * Further properties: text                                          *)
(* ================================================================== *)

Section TextProperties.

Lemma parse_loop_throw cs : forall ds,
  ~ Forall is_digit_char cs ->
  parse_loop cs ds = Throw (invalid_argument "Non-digit character in string").
Proof.
  induction cs as [|c cs IH]; intros ds H.
  - exfalso. apply H. constructor.
  - cbn [parse_loop]. destruct (isdigit c) eqn:Hc; cbn [negb]; [|reflexivity].
    apply IH. intros Hcs. apply H. constructor; assumption.
Qed.

Lemma zeros_are_digits zeros :
  Forall (fun c => c = "0"%char) zeros -> Forall is_digit_char zeros.
Proof. intros H. eapply Forall_impl; [|exact H]. intros c ->. reflexivity. Qed.

(** X2: the string constructor returns exactly for the texts made of
    decimal digits (the empty text is one of them) and throws
    [invalid_argument] for every other text, wherever the offending
    character stands. *)
Theorem parse_accepts_digit_texts (s : string) :
  ((exists a, BigInt_str s = Ok a) <-> Forall is_digit_char (list_ascii_of_string s))
  /\ (BigInt_str s = Throw (invalid_argument "Non-digit character in string")
      <-> ~ Forall is_digit_char (list_ascii_of_string s))
  /\ (forall e, BigInt_str s = Throw e -> kind_of_parse e = Some InvalidFormat).
Proof.
  unfold BigInt_str.
  pose proof (find_first_not_of_0_spec (list_ascii_of_string s) 0) as F.
  destruct (find_first_not_of_0 (list_ascii_of_string s) 0) as [k|].
  - destruct F as (zeros & c & rest & E & Hz & Hc & ->). cbn [Nat.add].
    rewrite E. rewrite skipn_app, Nat.sub_diag, skipn_all. cbn [app skipn].
    assert (Hiff : Forall is_digit_char (zeros ++ c :: rest)
                   <-> Forall is_digit_char (rev (c :: rest))).
    { rewrite Forall_app. split.
      - intros [_ H]. apply Forall_rev. exact H.
      - intros H. split; [apply zeros_are_digits, Hz|].
        apply Forall_rev in H. rewrite rev_involutive in H. exact H. }
    rewrite Hiff.
    destruct (Forall_dec is_digit_char
                (fun c => bool_dec (isdigit c) true) (rev (c :: rest))) as [D|D].
    + rewrite parse_loop_ok by exact D. cbn [bind].
      repeat split; eauto; try discriminate. intros N. contradiction.
    + rewrite parse_loop_throw by exact D. cbn [bind].
      repeat split; auto; try discriminate.
      * intros [a Ha]. discriminate.
      * intros H. contradiction.
      * intros e [= <-]. reflexivity.
  - repeat split; eauto; try discriminate.
    + intros _. apply zeros_are_digits, F.
    + intros N. exfalso. apply N. apply zeros_are_digits, F.
Qed.

(** The numeral that the standard library reads from a text of digits. *)
Lemma uint_of_string_digits s : forall u,
  DecimalString.NilEmpty.uint_of_string s = Some u ->
  Forall is_digit_char (list_ascii_of_string s)
  /\ u = uint_of_digits (map digit_of_char (list_ascii_of_string s)).
Proof.
  induction s as [|c s IH]; intros u H.
  - cbn in H. injection H as <-. split; [constructor|reflexivity].
  - cbn [DecimalString.NilEmpty.uint_of_string] in H.
    destruct (DecimalString.NilEmpty.uint_of_string s) as [d|] eqn:E;
      [|discriminate].
    destruct (IH d Logic.eq_refl) as [Hd ->].
    apply DecimalString.uint_of_char_spec in H.
    cbn [list_ascii_of_string map uint_of_digits].
    repeat (destruct H as [[-> ->]|H]; [split; [constructor; [reflexivity|exact Hd]|reflexivity]|]).
    destruct H as [-> ->]. split; [constructor; [reflexivity|exact Hd]|reflexivity].
Qed.

Lemma value_zeros_top l zeros :
  Forall (fun d => d = 0) zeros -> value (l ++ zeros) = value l.
Proof.
  intros H. rewrite value_app.
  assert (value zeros = 0).
  { induction H as [|d zeros -> _ IH]; cbn [value]; lia. }
  lia.
Qed.

(** X3: a text of digits that denotes a number other than zero is parsed to
    the canonical value of that number, whatever zeros it starts with. *)
Theorem parse_value (s : string) (u : Decimal.uint) :
  DecimalString.NilEmpty.uint_of_string s = Some u -> Z.of_uint u <> 0 ->
  exists a, BigInt_str s = Ok a /\ canonical a /\ Z_of a = Z.of_uint u.
Proof.
  intros Hu Hnz. destruct (uint_of_string_digits s u Hu) as [Hd ->].
  rewrite of_uint_digits in *
    by (apply Forall_map; eapply Forall_impl; [|exact Hd]; apply digit_of_char_digit).
  unfold BigInt_str.
  pose proof (find_first_not_of_0_spec (list_ascii_of_string s) 0) as F.
  destruct (find_first_not_of_0 (list_ascii_of_string s) 0) as [k|].
  - destruct F as (zeros & c & rest & E & Hz & Hc & ->). cbn [Nat.add].
    rewrite E in *. rewrite skipn_app, Nat.sub_diag, skipn_all. cbn [app skipn].
    apply Forall_app in Hd. destruct Hd as [_ Hd].
    rewrite parse_loop_ok by (apply Forall_rev, Hd). cbn [bind app].
    eexists. split; [reflexivity|]. split.
    + apply canonical_canon. apply parsed_canon; assumption.
    + unfold Z_of. cbn [digits].
      rewrite map_app, rev_app_distr, <- !map_rev.
      symmetry. apply value_zeros_top.
      apply Forall_map. apply Forall_rev.
      eapply Forall_impl; [|exact Hz]. intros x ->. reflexivity.
  - exfalso. apply Hnz.
    pose proof (value_zeros_top [] (rev (map digit_of_char (list_ascii_of_string s))))
      as V.
    cbn [app value] in V. apply V. apply Forall_rev. apply Forall_map.
    eapply Forall_impl; [|exact F]. intros x ->. reflexivity.
Qed.

Lemma parse_value_witness :
  exists a, BigInt_str "0001203" = Ok a /\ canonical a
            /\ Z_of a = Z.of_uint (Decimal.D0 (Decimal.D0 (Decimal.D0 (Decimal.D1
                          (Decimal.D2 (Decimal.D0 (Decimal.D3 Decimal.Nil))))))).
Proof.
  apply (parse_value "0001203"); [reflexivity | vm_compute; discriminate].
Defined.

(** X4: for every text of zeros only, the empty text included, the string
    constructor returns the single stored character 48: a value that is not
    canonical, that [is_zero] does not recognise, and that is rendered
    as 48. *)
Theorem parse_zeros_text (s : string) :
  Forall (fun c => c = "0"%char) (list_ascii_of_string s) ->
  exists a, BigInt_str s = Ok a /\ digits a = [48]
            /\ canonicalb a = false /\ is_zero a = false
            /\ render a = "48"%string.
Proof.
  intros H. rewrite (BigInt_str_all_zeros s H).
  eexists. repeat split.
Qed.

Lemma parse_zeros_text_witness :
  exists a, BigInt_str EmptyString = Ok a /\ digits a = [48]
            /\ canonicalb a = false /\ is_zero a = false
            /\ render a = "48"%string.
Proof. apply (parse_zeros_text EmptyString). constructor. Defined.

Lemma digit_of_char_of_digit d : is_digit d -> digit_of_char (char_of_digit d) = d.
Proof. intros H. apply digit_cases in H. repeat (destruct H as [->|H]; [reflexivity|]). subst. reflexivity. Qed.

Lemma char_of_digit_is_digit d : is_digit d -> is_digit_char (char_of_digit d).
Proof. intros H. apply digit_cases in H. repeat (destruct H as [->|H]; [reflexivity|]). subst. reflexivity. Qed.

Lemma char_of_digit_nonzero d : is_digit d -> d <> 0 -> char_of_digit d <> "0"%char.
Proof.
  intros H N E. apply N. rewrite <- (digit_of_char_of_digit d H), E. reflexivity.
Qed.

(** The text of a canonical value, character by character. *)
Lemma render_chars a :
  canonical a ->
  list_ascii_of_string (render a) = map char_of_digit (rev (digits a)).
Proof.
  intros Ha. apply canonical_canon in Ha. unfold render.
  rewrite render_digits by (apply Forall_rev, Ha).
  apply list_ascii_of_string_of_list_ascii.
Qed.

(** The most significant digit of a canonical value other than zero. *)
Lemma canonical_top_digit a :
  canonical a -> Z_of a <> 0 ->
  exists x m, rev (digits a) = x :: m /\ x <> 0 /\ Forall is_digit (x :: m).
Proof.
  intros Ha Hnz. apply canonical_canon in Ha. destruct Ha as (Hne & Hd & Hlast).
  destruct (rev (digits a)) as [|x m] eqn:E.
  - apply (f_equal (@rev Z)) in E. rewrite rev_involutive in E. cbn in E. congruence.
  - exists x, m. split; [reflexivity|]. split.
    + intros ->.
      assert (L : last (digits a) 0 = 0).
      { rewrite <- (rev_involutive (digits a)), last_rev_hd, E. reflexivity. }
      apply Hnz. unfold Z_of. rewrite (Hlast L). reflexivity.
    + rewrite <- E. apply Forall_rev, Hd.
Qed.

(** Parsing the rendered text of a canonical value other than zero. *)
Lemma parse_of_rendered (a : BigInt) :
  canonical a -> Z_of a <> 0 -> BigInt_str (render a) = Ok a.
Proof.
  intros Ha Hnz.
  destruct (canonical_top_digit a Ha Hnz) as (x & m & E & Hx & Hd).
  pose proof (render_chars a Ha) as R. rewrite E in R. cbn [map] in R.
  destruct (render a) as [|c rest] eqn:Er; [discriminate|].
  cbn [list_ascii_of_string] in R. injection R as -> Hrest.
  inversion Hd as [|? ? Hdx Hdm]; subst.
  rewrite BigInt_str_no_leading_zero by (apply char_of_digit_nonzero; assumption).
  rewrite Hrest.
  change (char_of_digit x :: map char_of_digit m) with (map char_of_digit (x :: m)).
  rewrite <- E, <- map_rev, rev_involutive.
  rewrite parse_loop_ok.
  - cbn [bind app]. rewrite map_map.
    rewrite (map_ext_Forall _ (fun d => d)), map_id; [destruct a; reflexivity|].
    apply canonical_canon in Ha. destruct Ha as (_ & Hda & _).
    eapply Forall_impl; [|exact Hda]. apply digit_of_char_of_digit.
  - apply Forall_map. apply canonical_canon in Ha. destruct Ha as (_ & Hda & _).
    eapply Forall_impl; [|exact Hda]. apply char_of_digit_is_digit.
Qed.

(** X5: parsing the rendered text of a canonical value other than zero
    gives the value back. *)
Theorem render_parse_roundtrip (a : BigInt) :
  canonical a -> Z_of a <> 0 -> BigInt_str (render a) = Ok a.
Proof. apply parse_of_rendered. Qed.

Lemma render_parse_roundtrip_witness :
  BigInt_str (render (BigInt_ull 10200)) = Ok (BigInt_ull 10200).
Proof.
  apply (render_parse_roundtrip (BigInt_ull 10200)); [reflexivity | vm_compute; discriminate].
Defined.

(** X20: every canonical value, however it was computed, is rendered as the
    decimal text of the number it denotes. *)
Theorem render_decimal (a : BigInt) :
  canonical a -> render a = decimal_string (Z_of a).
Proof. apply render_canonical. Qed.

Lemma render_decimal_witness :
  render (op_mul (BigInt_ull 4294967296) (BigInt_ull 4294967296))
  = decimal_string (Z_of (op_mul (BigInt_ull 4294967296) (BigInt_ull 4294967296))).
Proof.
  apply (render_decimal (op_mul (BigInt_ull 4294967296) (BigInt_ull 4294967296))).
  reflexivity.
Defined.

End TextProperties.

(* ================================================================== *)
(** * Further properties: input                                         *)
(* ================================================================== *)

Section Input.

Lemma skip_ws_app ws l :
  Forall (fun c => isspace c = true) ws ->
  skip_ws (ws ++ l) = skip_ws l.
Proof.
  induction 1 as [|c ws Hc _ IH]; [reflexivity|].
  cbn [app skip_ws]. rewrite Hc. exact IH.
Qed.

Lemma skip_ws_all ws : Forall (fun c => isspace c = true) ws -> skip_ws ws = [].
Proof.
  intros H. rewrite <- (List.app_nil_r ws). rewrite skip_ws_app by exact H. reflexivity.
Qed.

Lemma skip_ws_token c l : isspace c = false -> skip_ws (c :: l) = c :: l.
Proof. intros H. cbn [skip_ws]. rewrite H. reflexivity. Qed.

Lemma read_token_app t rest :
  Forall (fun c => isspace c = false) t -> starts_with_space rest ->
  read_token (t ++ rest) = (t, rest).
Proof.
  intros Ht Hrest. induction Ht as [|c t Hc _ IH].
  - cbn [app]. destruct rest as [|c rest]; [reflexivity|].
    cbn [read_token]. cbn in Hrest. rewrite Hrest. reflexivity.
  - cbn [app read_token]. rewrite Hc, IH. reflexivity.
Qed.

Lemma digit_char_not_space c : is_digit_char c -> isspace c = false.
Proof.
  unfold is_digit_char, isdigit, isspace. rewrite andb_true_iff, !Z.leb_le.
  intros [H1 H2].
  destruct (Z.eqb_spec (int_of_char c) 32); [lia|].
  destruct (Z.leb_spec 9 (int_of_char c)), (Z.leb_spec (int_of_char c) 13);
    cbn; auto; lia.
Qed.

(** X21: reading back what [operator<<] wrote: for a canonical value other
    than zero, extraction from white space, the rendered text and a rest
    that is empty or starts with white space assigns the value and leaves
    the rest unread. *)
Theorem extract_rendered_value (a num : BigInt) (ws rest : list ascii) :
  canonical a -> Z_of a <> 0 ->
  Forall (fun c => isspace c = true) ws -> starts_with_space rest ->
  op_extract (ws ++ list_ascii_of_string (render a) ++ rest) num = (rest, a, Ok tt).
Proof.
  intros Ha Hnz Hws Hrest. unfold op_extract.
  rewrite skip_ws_app by exact Hws.
  assert (Ht : Forall (fun c => isspace c = false) (list_ascii_of_string (render a))).
  { rewrite render_chars by exact Ha. apply Forall_map. apply Forall_rev.
    apply canonical_canon in Ha. destruct Ha as (_ & Hd & _).
    eapply Forall_impl; [|exact Hd].
    intros d Hdd. apply digit_char_not_space, char_of_digit_is_digit, Hdd. }
  destruct (list_ascii_of_string (render a)) as [|c t] eqn:E.
  - apply (f_equal string_of_list_ascii) in E.
    rewrite string_of_list_ascii_of_string in E.
    pose proof (parse_of_rendered a Ha Hnz) as R. rewrite E in R.
    injection R as <-. discriminate Ha.
  - inversion Ht as [|? ? Hc Htt]; subst.
    change ((c :: t) ++ rest) with (c :: (t ++ rest)).
    rewrite skip_ws_token by exact Hc.
    change (c :: t ++ rest) with ((c :: t) ++ rest).
    rewrite read_token_app by assumption.
    rewrite <- E, string_of_list_ascii_of_string.
    rewrite (parse_of_rendered a Ha Hnz). reflexivity.
Qed.

Lemma extract_rendered_value_witness :
  op_extract ([" "%char; "010"%char] ++ list_ascii_of_string (render (BigInt_ull 42))
              ++ [" "%char; "7"%char]) (BigInt_ull 0)
  = ([" "%char; "7"%char], BigInt_ull 42, Ok tt).
Proof.
  apply (extract_rendered_value (BigInt_ull 42) (BigInt_ull 0));
    [reflexivity | vm_compute; discriminate | repeat constructor | reflexivity].
Defined.

(** X22: extraction from an input with nothing but white space left (or
    nothing at all) consumes it and does not leave [num] alone: the empty
    string goes to the string constructor and [num] becomes the
    non-canonical value with the single stored character 48. *)
Theorem extract_at_end_of_input (input : list ascii) (num : BigInt) :
  Forall (fun c => isspace c = true) input ->
  op_extract input num = ([], mkBigInt [48], Ok tt).
Proof.
  intros H. unfold op_extract. rewrite skip_ws_all by exact H. reflexivity.
Qed.

Lemma extract_at_end_of_input_witness :
  op_extract [" "%char; "010"%char] (BigInt_ull 5) = ([], mkBigInt [48], Ok tt).
Proof.
  apply (extract_at_end_of_input [" "%char; "010"%char] (BigInt_ull 5)).
  repeat constructor.
Defined.

Lemma BigInt_str_rejects s :
  ~ Forall is_digit_char (list_ascii_of_string s) ->
  BigInt_str s = Throw (invalid_argument "Non-digit character in string").
Proof.
  intros N. unfold BigInt_str.
  pose proof (find_first_not_of_0_spec (list_ascii_of_string s) 0) as F.
  destruct (find_first_not_of_0 (list_ascii_of_string s) 0) as [k|].
  - destruct F as (zeros & c & rest & E & Hz & Hc & ->). cbn [Nat.add].
    rewrite E in *. rewrite skipn_app, Nat.sub_diag, skipn_all. cbn [app skipn].
    rewrite parse_loop_throw; [reflexivity|].
    intros D. apply N. apply Forall_app. split; [apply zeros_are_digits, Hz|].
    apply Forall_rev in D. rewrite rev_involutive in D. exact D.
  - exfalso. apply N. apply zeros_are_digits, F.
Qed.

(** X23: extraction of a token that is not a text of digits throws
    [invalid_argument]; the token is consumed and [num] keeps its value. *)
Theorem extract_bad_token (num : BigInt) (ws t rest : list ascii) :
  Forall (fun c => isspace c = true) ws ->
  Forall (fun c => isspace c = false) t ->
  ~ Forall is_digit_char t ->
  starts_with_space rest ->
  op_extract (ws ++ t ++ rest) num
  = (rest, num, Throw (invalid_argument "Non-digit character in string")).
Proof.
  intros Hws Ht Hbad Hrest. unfold op_extract.
  rewrite skip_ws_app by exact Hws.
  destruct t as [|c t]; [exfalso; apply Hbad; constructor|].
  inversion Ht as [|? ? Hc Htt]; subst.
  change ((c :: t) ++ rest) with (c :: (t ++ rest)).
  rewrite skip_ws_token by exact Hc.
  change (c :: t ++ rest) with ((c :: t) ++ rest).
  rewrite read_token_app by assumption.
  rewrite BigInt_str_rejects; [reflexivity|].
  rewrite list_ascii_of_string_of_list_ascii. exact Hbad.
Qed.

Lemma extract_bad_token_witness :
  op_extract ([" "%char] ++ ["-"%char; "5"%char] ++ [" "%char; "8"%char]) (BigInt_ull 3)
  = ([" "%char; "8"%char], BigInt_ull 3,
     Throw (invalid_argument "Non-digit character in string")).
Proof.
  apply (extract_bad_token (BigInt_ull 3) [" "%char] ["-"%char; "5"%char]
           [" "%char; "8"%char]);
    [repeat constructor | repeat constructor | | reflexivity].
  intros H. inversion H as [|? ? Hc _]. discriminate Hc.
Defined.

End Input.

(* ================================================================== *)
(** * Further properties: Fibonacci and Catalan numbers                 *)
(* ================================================================== *)

Section Numbers.

Lemma fib_step k : fib (S (S k)) = fib k + fib (S k).
Proof. reflexivity. Qed.

Lemma fibonacci_loop_spec fuel : forall n i a b,
  canonical a -> canonical b -> n < INT_MAX -> 2 <= i <= n + 1 ->
  Z_of a = fib (Z.to_nat (i - 2)) -> Z_of b = fib (Z.to_nat (i - 1)) ->
  n + 1 - i < Z.of_nat fuel ->
  exists r, fibonacci_loop fuel n i a b = Ok r
            /\ canonical r /\ Z_of r = fib (Z.to_nat n).
Proof.
  induction fuel as [|fuel IH]; intros n i a b Ha Hb Hn Hi Va Vb Hf; [lia|].
  cbn [fibonacci_loop].
  destruct (Z.leb_spec i n) as [Hle|Hgt].
  - rewrite int_wrap_small by (unfold in_int, INT_MIN, INT_MAX in *; lia).
    destruct (op_add_spec a b Ha Hb) as [Hs Vs].
    apply IH; auto; try lia.
    + rewrite Vb. f_equal. lia.
    + rewrite Vs, Va, Vb.
      replace (Z.to_nat (i + 1 - 1)) with (S (S (Z.to_nat (i - 2)))) by lia.
      replace (Z.to_nat (i - 1)) with (S (Z.to_nat (i - 2))) by lia.
      symmetry. apply fib_step.
  - exists b. repeat split; auto. rewrite Vb. f_equal. lia.
Qed.

(** X18: for a native [n] with [0 <= n < INT_MAX], [fibonacci n] returns
    the canonical value of the n-th Fibonacci number. *)
Theorem fibonacci_correct (fuel : nat) (n : Z) :
  0 <= n < INT_MAX -> n < Z.of_nat fuel ->
  exists r, fibonacci fuel n = Ok r /\ canonical r /\ Z_of r = fib (Z.to_nat n).
Proof.
  intros Hn Hf. unfold fibonacci.
  destruct (Z.eqb_spec n 0) as [->|N0].
  - exists (BigInt_ull 0). repeat split.
  - apply fibonacci_loop_spec; auto using zero_canonical, one_canonical; try lia;
      reflexivity.
Qed.

Lemma fibonacci_correct_witness :
  exists r, fibonacci 21 20 = Ok r /\ canonical r /\ Z_of r = fib (Z.to_nat 20).
Proof. apply (fibonacci_correct 21 20); unfold INT_MAX; lia. Defined.

(** The factorial of a natural number, as [product_1_to]. *)
Lemma product_succ m :
  product_1_to (Z.of_nat (S m)) = product_1_to (Z.of_nat m) * Z.of_nat (S m).
Proof.
  rewrite product_1_to_step by lia. f_equal. f_equal. lia.
Qed.

Lemma binom_above n : forall k, (n < k)%nat -> binom n k = 0.
Proof.
  induction n as [|n IH]; intros [|k] H; try lia; [reflexivity|].
  cbn [binom]. rewrite !IH by lia. reflexivity.
Qed.

Lemma binom_factorials n : forall k, (k <= n)%nat ->
  binom n k * product_1_to (Z.of_nat k) * product_1_to (Z.of_nat (n - k))
  = product_1_to (Z.of_nat n).
Proof.
  induction n as [|n IH]; intros k Hk.
  - replace k with 0%nat by lia. reflexivity.
  - destruct k as [|k].
    + cbn [binom]. rewrite Nat.sub_0_r.
      change (product_1_to (Z.of_nat 0)) with 1. ring.
    + cbn [binom]. rewrite Nat.sub_succ, !product_succ.
      destruct (Nat.eq_dec k n) as [->|Hkn].
      * rewrite (binom_above n (S n)) by lia. specialize (IH n ltac:(lia)).
        rewrite Nat.sub_diag in *. rewrite <- IH at 2. ring.
      * pose proof (IH k ltac:(lia)) as E1. pose proof (IH (S k) ltac:(lia)) as E2.
        replace (n - k)%nat with (S (n - S k)) in * by lia.
        rewrite product_succ in *.
        set (B1 := binom n k) in *. set (B2 := binom n (S k)) in *.
        set (Pk := product_1_to (Z.of_nat k)) in *.
        set (Pr := product_1_to (Z.of_nat (n - S k))) in *.
        set (Pn := product_1_to (Z.of_nat n)) in *.
        replace (Z.of_nat (S n)) with (Z.of_nat (S k) + Z.of_nat (S (n - S k))) by lia.
        set (x := Z.of_nat (S k)) in *. set (y := Z.of_nat (S (n - S k))) in *.
        replace ((B1 + B2) * (Pk * x) * (Pr * y))
          with (x * (B1 * Pk * (Pr * y)) + y * (B2 * (Pk * x) * Pr)) by ring.
        rewrite E1, E2. ring.
Qed.

(** The two binomial coefficients of a Catalan number. *)
Lemma ballot n : binom (2 * n) (S n) * Z.of_nat (S n) = binom (2 * n) n * Z.of_nat n.
Proof.
  destruct n as [|n]; [reflexivity|].
  pose proof (binom_factorials (2 * S n) (S n) ltac:(lia)) as E1.
  pose proof (binom_factorials (2 * S n) (S (S n)) ltac:(lia)) as E2.
  replace (2 * S n - S n)%nat with (S n) in E1 by lia.
  replace (2 * S n - S (S n))%nat with n in E2 by lia.
  rewrite (product_succ (S n)) in E2. rewrite (product_succ n) in E1 at 2.
  set (B := binom (2 * S n) (S n)) in *. set (B' := binom (2 * S n) (S (S n))) in *.
  set (P := product_1_to (Z.of_nat (S n))) in *.
  set (Q := product_1_to (Z.of_nat n)) in *.
  assert (HP : 0 < P) by apply product_1_to_pos.
  assert (HQ : 0 < Q) by apply product_1_to_pos.
  apply (Z.mul_reg_r _ _ (P * Q)); [nia|].
  transitivity (B' * (P * Z.of_nat (S (S n))) * Q); [ring|].
  rewrite E2, <- E1. ring.
Qed.

Lemma catalan_number_factorials n :
  catalan_number n
  * (product_1_to (Z.of_nat (S n)) * product_1_to (Z.of_nat n))
  = product_1_to (Z.of_nat (2 * n)).
Proof.
  unfold catalan_number.
  pose proof (binom_factorials (2 * n) n ltac:(lia)) as E.
  replace (2 * n - n)%nat with n in E by lia.
  pose proof (ballot n) as Bt. rewrite product_succ.
  set (B := binom (2 * n) n) in *. set (B' := binom (2 * n) (S n)) in *.
  set (Q := product_1_to (Z.of_nat n)) in *.
  rewrite <- E.
  replace ((B - B') * (Q * Z.of_nat (S n) * Q))
    with ((B * Z.of_nat (S n) - B' * Z.of_nat (S n)) * Q * Q) by ring.
  rewrite Bt. replace (Z.of_nat (S n)) with (Z.of_nat n + 1) by lia. ring.
Qed.

(** X19: [catalan n] is the n-th Catalan number, and the division in it is
    exact: the quotient times the denominator is [factorial (2 * n)]. *)
Theorem catalan_exact (fuel : nat) (n : Z) :
  0 <= n -> 2 * n <= INT_MAX -> 2 * n + 10 <= Z.of_nat fuel ->
  exists r, catalan fuel n = Ok r /\ canonical r
            /\ Z_of r = catalan_number (Z.to_nat n)
            /\ Z_of r * (product_1_to (n + 1) * product_1_to n) = product_1_to (2 * n).
Proof.
  intros Hn Hmax Hf.
  destruct (catalan_ok fuel n Hn Hmax Hf) as (num & f1 & f0 & r & _ & _ & _ & _ & E & Hr & Vr).
  exists r. split; [exact E|]. split; [exact Hr|].
  pose proof (catalan_number_factorials (Z.to_nat n)) as C.
  replace (Z.of_nat (S (Z.to_nat n))) with (n + 1) in C by lia.
  replace (Z.of_nat (Z.to_nat n)) with n in C by lia.
  replace (Z.of_nat (2 * Z.to_nat n)) with (2 * n) in C by lia.
  pose proof (product_1_to_pos (n + 1)). pose proof (product_1_to_pos n).
  assert (V : Z_of r = catalan_number (Z.to_nat n)).
  { rewrite Vr, <- C. apply Z.div_mul. nia. }
  split; [exact V|]. rewrite V. exact C.
Qed.

Lemma catalan_exact_witness :
  exists r, catalan 30 10 = Ok r /\ canonical r
            /\ Z_of r = catalan_number (Z.to_nat 10)
            /\ Z_of r * (product_1_to (10 + 1) * product_1_to 10) = product_1_to (2 * 10).
Proof. apply (catalan_exact 30 10); unfold INT_MAX; lia. Defined.

End Numbers.
